(** * datatransfer: the chunked table migration of [datatrasnfer.py]

    A shallow embedding of [get_connection] and [migrate_table] and of the
    two database servers they talk to, followed by the properties of the
    transfer loop: batching, per-batch commit and rollback, the fatal setup
    path, handle release, schema introspection and the SQL text it builds. *)

From Stdlib Require Import String Ascii List ZArith Arith Lia Bool.
From Stdlib Require Import Sorting.Sorted Sorting.Permutation.
Import ListNotations.
Open Scope string_scope.

Set Implicit Arguments.

(** ** Values, rows and the two servers *)

(** A Python value travelling in a row tuple or in a configuration dict. *)
Inductive value : Type :=
| VNull
| VInt (z : Z)
| VStr (s : string).

Definition row : Type := list value.

(** A table of the source server: its qualified name, its columns with
    their ordinal position, and its rows. *)
Record table : Type := mkTable {
  tbl_schema : string;
  tbl_name : string;
  tbl_columns : list (string * Z);
  tbl_rows : list row
}.

(** One line of the catalog view [information_schema.columns]. *)
Record column_info : Type := mkColumn {
  table_schema : string;
  table_name : string;
  column_name : string;
  ordinal_position : Z
}.

Definition information_schema_columns (db : list table) : list column_info :=
  flat_map (fun t =>
    map (fun c => mkColumn (tbl_schema t) (tbl_name t) (fst c) (snd c))
        (tbl_columns t)) db.

Definition is_table (schema name : string) (t : table) : bool :=
  String.eqb (tbl_schema t) schema && String.eqb (tbl_name t) name.

Definition find_table (db : list table) (schema name : string) : option table :=
  find (is_table schema name) db.

(** The four handles [migrate_table] opens. *)
Inductive handle : Type := SrcConn | TgtConn | SrcCur | TgtCur.

(** Which server a configuration record designates. *)
Inductive endpoint : Type := Source | Target.

(** A call of [cursor.execute]: the cursor, the SQL text and the bound
    parameters. *)
Record stmt : Type := mkStmt {
  st_cursor : handle;
  st_sql : string;
  st_params : list value
}.

(** The lines written through [logging]; the message text is kept as the
    data each f-string interpolates. *)
Inductive log_event : Type :=
| LogStart (src_schema src_table tgt_schema tgt_table : string) (chunk : nat)
| LogChunkPrepare (chunk_num len : nat)
| LogChunkCommitted (chunk_num total : nat)
| LogChunkError (chunk_num : nat) (detail : string)
| LogTotal (total : nat) (src_schema src_table tgt_schema tgt_table : string)
| LogFatal (detail : string).

(** Everything outside the Python process that a run reads or changes.  The
    target table is a store of its own: a table migrated onto itself is not
    described. *)
Record world : Type := mkWorld {
  src_db : list table;          (* the source server *)
  src_result : list row;        (* result set of the source cursor, rows not yet fetched *)
  tgt_committed : list row;     (* committed rows of the target table *)
  tgt_pending : list row;       (* rows inserted in the open target transaction *)
  opened : list handle;
  closed : list handle;
  executed : list stmt;         (* every execute call, in order *)
  fetch_calls : nat;            (* calls of fetchmany *)
  commit_calls : nat;           (* calls of tgt_conn.commit *)
  rollback_calls : nat;         (* calls of tgt_conn.rollback *)
  log : list log_event
}.

Definition initial_world (db : list table) (tgt : list row) : world :=
  mkWorld db [] tgt [] [] [] [] 0 0 0 [].

Definition set_src_result (v : list row) (w : world) : world :=
  mkWorld (src_db w) v (tgt_committed w) (tgt_pending w) (opened w) (closed w)
          (executed w) (fetch_calls w) (commit_calls w) (rollback_calls w) (log w).

Definition set_tgt_committed (v : list row) (w : world) : world :=
  mkWorld (src_db w) (src_result w) v (tgt_pending w) (opened w) (closed w)
          (executed w) (fetch_calls w) (commit_calls w) (rollback_calls w) (log w).

Definition set_tgt_pending (v : list row) (w : world) : world :=
  mkWorld (src_db w) (src_result w) (tgt_committed w) v (opened w) (closed w)
          (executed w) (fetch_calls w) (commit_calls w) (rollback_calls w) (log w).

Definition set_opened (v : list handle) (w : world) : world :=
  mkWorld (src_db w) (src_result w) (tgt_committed w) (tgt_pending w) v (closed w)
          (executed w) (fetch_calls w) (commit_calls w) (rollback_calls w) (log w).

Definition set_closed (v : list handle) (w : world) : world :=
  mkWorld (src_db w) (src_result w) (tgt_committed w) (tgt_pending w) (opened w) v
          (executed w) (fetch_calls w) (commit_calls w) (rollback_calls w) (log w).

Definition set_executed (v : list stmt) (w : world) : world :=
  mkWorld (src_db w) (src_result w) (tgt_committed w) (tgt_pending w) (opened w)
          (closed w) v (fetch_calls w) (commit_calls w) (rollback_calls w) (log w).

Definition set_fetch_calls (v : nat) (w : world) : world :=
  mkWorld (src_db w) (src_result w) (tgt_committed w) (tgt_pending w) (opened w)
          (closed w) (executed w) v (commit_calls w) (rollback_calls w) (log w).

Definition set_commit_calls (v : nat) (w : world) : world :=
  mkWorld (src_db w) (src_result w) (tgt_committed w) (tgt_pending w) (opened w)
          (closed w) (executed w) (fetch_calls w) v (rollback_calls w) (log w).

Definition set_rollback_calls (v : nat) (w : world) : world :=
  mkWorld (src_db w) (src_result w) (tgt_committed w) (tgt_pending w) (opened w)
          (closed w) (executed w) (fetch_calls w) (commit_calls w) v (log w).

Definition set_log (v : list log_event) (w : world) : world :=
  mkWorld (src_db w) (src_result w) (tgt_committed w) (tgt_pending w) (opened w)
          (closed w) (executed w) (fetch_calls w) (commit_calls w) (rollback_calls w) v.

(** ** Exceptions and the monad of a run *)

(** [Exception] stands for every exception [except Exception] catches;
    [SystemExit] is what [sys.exit] raises and that clause lets through. *)
Inductive exn : Type :=
| Exception (msg : string)
| SystemExit (code : Z).

(** [OutOfFuel] is not a Python outcome: the model of the [while True] loop
    stopped before the loop did. *)
Inductive result (A : Type) : Type :=
| Ok (a : A)
| Raise (e : exn)
| OutOfFuel.

Arguments Ok {A} a.
Arguments Raise {A} e.
Arguments OutOfFuel {A}.

(** An exception leaves the world as the failing call left it, so the state
    is threaded beside the result and not inside it. *)
Definition M (A : Type) : Type := world -> result A * world.

Definition ret {A : Type} (a : A) : M A := fun w => (Ok a, w).

Definition bind {A B : Type} (c : M A) (k : A -> M B) : M B :=
  fun w =>
    match c w with
    | (Ok a, w') => k a w'
    | (Raise e, w') => (Raise e, w')
    | (OutOfFuel, w') => (OutOfFuel, w')
    end.

Definition raise {A : Type} (e : exn) : M A := fun w => (Raise e, w).

Definition out_of_fuel {A : Type} : M A := fun w => (OutOfFuel, w).

(** [try: body except Exception as e: handler e]. *)
Definition try_except {A : Type} (body : M A) (handler : string -> M A) : M A :=
  fun w =>
    match body w with
    | (Raise (Exception msg), w') => handler msg w'
    | other => other
    end.

Definition modify (f : world -> world) : M unit := fun w => (Ok tt, f w).

Declare Scope py_scope.
Delimit Scope py_scope with py.
Notation "x <- c ;; k" := (bind c (fun x => k))
  (at level 100, c at next level, right associativity) : py_scope.
Notation "c ;; k" := (bind c (fun _ => k))
  (at level 100, right associativity) : py_scope.
Open Scope py_scope.

(** Exit status of the interpreter running the script around a call. *)
Definition exit_status {A : Type} (r : result A) : option Z :=
  match r with
  | Ok _ => Some 0%Z
  | Raise (SystemExit c) => Some c
  | Raise (Exception _) => Some 1%Z
  | OutOfFuel => None
  end.

(** ** What can go wrong outside the program *)

(** The calls that may raise, and when.  Counters are the ordinal of the
    call: [fetch_fails 2] makes the second [fetchmany] raise.  Whether an
    insert is rejected depends on the row (a constraint it violates, a type
    that does not fit), not on what the target already holds. *)
Record faults : Type := mkFaults {
  connect_fails : endpoint -> bool;   (* psycopg2.connect raises *)
  catalog_query_fails : bool;         (* the column lookup raises *)
  fetch_fails : nat -> bool;          (* the n-th fetchmany raises *)
  insert_fails : row -> bool;         (* the target rejects this row *)
  commit_fails : nat -> bool;         (* the n-th commit raises *)
  rollback_fails : nat -> bool        (* the n-th rollback raises *)
}.

Definition no_faults : faults :=
  mkFaults (fun _ => false) false (fun _ => false) (fun _ => false)
           (fun _ => false) (fun _ => false).

(** ** SQL text *)

Definition dquote : string := String (ascii_of_nat 34) EmptyString.
Definition newline : string := String (ascii_of_nat 10) EmptyString.

(** [sep.join(items)]. *)
Definition join (sep : string) (items : list string) : string :=
  String.concat sep items.

Definition catalog_sql : string :=
  newline ++
  "            SELECT column_name FROM information_schema.columns" ++ newline ++
  "            WHERE table_schema = %s AND table_name = %s" ++ newline ++
  "            ORDER BY ordinal_position".

(** [f'SELECT {cols_str} FROM "{src_schema}"."{src_table}"'] *)
Definition select_sql (cols_str src_schema src_table : string) : string :=
  "SELECT " ++ cols_str ++ " FROM " ++ dquote ++ src_schema ++ dquote ++ "."
            ++ dquote ++ src_table ++ dquote.

(** [f'INSERT INTO "{tgt_schema}"."{tgt_table}" ({cols_str}) VALUES ({placeholders})'] *)
Definition insert_sql_text (tgt_schema tgt_table cols_str placeholders : string) : string :=
  "INSERT INTO " ++ dquote ++ tgt_schema ++ dquote ++ "." ++ dquote ++ tgt_table
                 ++ dquote ++ " (" ++ cols_str ++ ") VALUES (" ++ placeholders ++ ")".

(** ** The catalog lookup on the server *)

Fixpoint insert_by_ordinal (c : column_info) (l : list column_info) : list column_info :=
  match l with
  | [] => [c]
  | d :: l' =>
      if (ordinal_position c <=? ordinal_position d)%Z
      then c :: d :: l'
      else d :: insert_by_ordinal c l'
  end.

(** [ORDER BY ordinal_position] *)
Definition order_by_ordinal (l : list column_info) : list column_info :=
  fold_right insert_by_ordinal [] l.

(** The order [ORDER BY ordinal_position] asks for. *)
Definition by_ordinal (c d : column_info) : Prop :=
  (ordinal_position c <= ordinal_position d)%Z.

(** [WHERE table_schema = %s AND table_name = %s] *)
Definition where_table (schema name : string) (c : column_info) : bool :=
  String.eqb (table_schema c) schema && String.eqb (table_name c) name.

Definition catalog_lookup (db : list table) (schema name : string) : list column_info :=
  order_by_ordinal (filter (where_table schema name) (information_schema_columns db)).

(** [row[0]] of a catalog row; [column_name] is a text column. *)
Definition row0 (r : row) : string :=
  match r with
  | VStr s :: _ => s
  | _ => ""
  end.

(** ** The server's reading of a query on the catalog

    The source server is handed the text of the column lookup and its
    bound parameters; it reads the text as a query on
    [information_schema.columns] and answers from the catalog of its
    tables.  The fragment read is
    [SELECT c FROM information_schema.columns [WHERE c = %s {AND c = %s}]
    [ORDER BY c]], in words separated by blanks. *)

Inductive catalog_field : Type :=
| FTableSchema | FTableName | FColumnName | FOrdinalPosition.

Definition field_of_name (s : string) : option catalog_field :=
  if String.eqb s "table_schema" then Some FTableSchema
  else if String.eqb s "table_name" then Some FTableName
  else if String.eqb s "column_name" then Some FColumnName
  else if String.eqb s "ordinal_position" then Some FOrdinalPosition
  else None.

Definition field_value (f : catalog_field) (c : column_info) : value :=
  match f with
  | FTableSchema => VStr (table_schema c)
  | FTableName => VStr (table_name c)
  | FColumnName => VStr (column_name c)
  | FOrdinalPosition => VInt (ordinal_position c)
  end.

Record catalog_query : Type := mkQuery {
  q_select : catalog_field;
  q_where : list catalog_field;          (* each compared with the next [%s] *)
  q_order_by : option catalog_field
}.

Definition is_blank (a : ascii) : bool :=
  Ascii.eqb a (ascii_of_nat 32) || Ascii.eqb a (ascii_of_nat 10) ||
  Ascii.eqb a (ascii_of_nat 9) || Ascii.eqb a (ascii_of_nat 13).

(** The words of a text, [cur] being the word read so far. *)
Fixpoint words_from (cur : string) (s : string) : list string :=
  match s with
  | EmptyString => if String.eqb cur "" then [] else [cur]
  | String a s' =>
      if is_blank a
      then (if String.eqb cur "" then words_from "" s' else cur :: words_from "" s')
      else words_from (cur ++ String a "") s'
  end.

Definition words (s : string) : list string := words_from "" s.

(** [c = %s {AND c = %s}]; the value is the fields compared and the words
    that follow. *)
Fixpoint parse_conditions (ts : list string) : option (list catalog_field * list string) :=
  match ts with
  | f :: eq :: ph :: rest =>
      if String.eqb eq "=" && String.eqb ph "%s"
      then match field_of_name f with
           | None => None
           | Some fld =>
               match rest with
               | kw :: rest' =>
                   if String.eqb kw "AND"
                   then match parse_conditions rest' with
                        | Some (flds, others) => Some (fld :: flds, others)
                        | None => None
                        end
                   else Some ([fld], rest)
               | [] => Some ([fld], [])
               end
           end
      else None
  | _ => None
  end.

Definition parse_order_by (ts : list string) : option (option catalog_field) :=
  match ts with
  | [] => Some None
  | [o; b; f] =>
      if String.eqb o "ORDER" && String.eqb b "BY"
      then match field_of_name f with
           | Some fld => Some (Some fld)
           | None => None
           end
      else None
  | _ => None
  end.

Definition parse_catalog_query (sql : string) : option catalog_query :=
  match words sql with
  | sel :: col :: from :: rel :: rest =>
      if String.eqb sel "SELECT" && String.eqb from "FROM" &&
         String.eqb rel "information_schema.columns"
      then match field_of_name col with
           | None => None
           | Some c =>
               let conditions :=
                 match rest with
                 | w :: rest' =>
                     if String.eqb w "WHERE" then parse_conditions rest'
                     else Some ([], rest)
                 | [] => Some ([], [])
                 end in
               match conditions with
               | None => None
               | Some (flds, others) =>
                   match parse_order_by others with
                   | Some order => Some (mkQuery c flds order)
                   | None => None
                   end
               end
           end
      else None
  | _ => None
  end.

(** SQL equality and ascending order on values; [NULL] equals nothing and
    sorts last. *)
Definition value_eqb (a b : value) : bool :=
  match a, b with
  | VInt x, VInt y => Z.eqb x y
  | VStr x, VStr y => String.eqb x y
  | _, _ => false
  end.

Definition value_leb (a b : value) : bool :=
  match a, b with
  | VInt x, VInt y => Z.leb x y
  | VStr x, VStr y => String.leb x y
  | _, VNull => true
  | VNull, _ => false
  | VInt _, VStr _ => true
  | VStr _, VInt _ => false
  end.

Fixpoint where_holds (flds : list catalog_field) (params : list value)
         (c : column_info) : bool :=
  match flds, params with
  | [], _ => true
  | f :: flds', p :: params' => value_eqb (field_value f c) p && where_holds flds' params' c
  | _ :: _, [] => false
  end.

Fixpoint insert_by (key : column_info -> value) (c : column_info)
         (l : list column_info) : list column_info :=
  match l with
  | [] => [c]
  | d :: l' =>
      if value_leb (key c) (key d) then c :: d :: l' else d :: insert_by key c l'
  end.

Definition order_by (key : column_info -> value) (l : list column_info)
  : list column_info :=
  fold_right (insert_by key) [] l.

(** The rows a parsed query yields: one value per line of the catalog that
    passes the conditions, in the order asked for, or in the order of the
    catalog when none is.  As many parameters as placeholders are needed. *)
Definition run_catalog_query (q : catalog_query) (params : list value)
           (catalog : list column_info) : option (list row) :=
  if Nat.eqb (length (q_where q)) (length params)
  then
    let lines := filter (where_holds (q_where q) params) catalog in
    let lines :=
      match q_order_by q with
      | Some f => order_by (field_value f) lines
      | None => lines
      end in
    Some (map (fun c => [field_value (q_select q) c]) lines)
  else None.

Definition server_catalog_query (db : list table) (sql : string) (params : list value)
  : option (list row) :=
  match parse_catalog_query sql with
  | Some q => run_catalog_query q params (information_schema_columns db)
  | None => None
  end.

Section Program.

Variable F : faults.

(** ** The calls of the program on its collaborators *)

Definition logging (e : log_event) : M unit :=
  modify (fun w => set_log (log w ++ [e]) w).

(** [logging.basicConfig] picks the file and the format of the log; the
    lines themselves are kept in [log].  This is the call when the log file
    opens; [setup_logger_or_raise] below has the other case. *)
Definition setup_logger : M unit := ret tt.

Definition conf : Type := list (string * value).

Fixpoint conf_get (c : conf) (key : string) : option value :=
  match c with
  | [] => None
  | (k, v) :: c' => if String.eqb k key then Some v else conf_get c' key
  end.

(** [conf[key]]: a missing key raises [KeyError]. *)
Definition subscript (c : conf) (key : string) : M value :=
  match conf_get c key with
  | Some v => ret v
  | None => raise (Exception ("KeyError: " ++ key))
  end.

Definition conn_of (e : endpoint) : handle :=
  match e with Source => SrcConn | Target => TgtConn end.

Definition cur_of (e : endpoint) : handle :=
  match e with Source => SrcCur | Target => TgtCur end.

Definition psycopg2_connect (e : endpoint) (host port dbname user password : value) : M unit :=
  fun w =>
    if connect_fails F e
    then (Raise (Exception "OperationalError: could not connect"), w)
    else (Ok tt, set_opened (opened w ++ [conn_of e]) w).

Definition get_connection (e : endpoint) (c : conf) : M unit :=
  host <- subscript c "host" ;;
  port <- subscript c "port" ;;
  dbname <- subscript c "database" ;;
  user <- subscript c "user" ;;
  password <- subscript c "password" ;;
  psycopg2_connect e host port dbname user password.

(** [conn.cursor()] *)
Definition cursor (e : endpoint) : M unit :=
  modify (fun w => set_opened (opened w ++ [cur_of e]) w).

(** [src_cur.execute(sql, (src_schema, src_table))]: the server reads the
    text it is sent and rejects what it cannot read. *)
Definition src_cur_execute_catalog (sql : string) (schema name : string) : M unit :=
  fun w =>
    let params := [VStr schema; VStr name] in
    let w1 := set_executed (executed w ++ [mkStmt SrcCur sql params]) w in
    if catalog_query_fails F
    then (Raise (Exception "DatabaseError: catalog query failed"), w1)
    else
      match server_catalog_query (src_db w) sql params with
      | Some rows => (Ok tt, set_src_result rows w1)
      | None => (Raise (Exception "ProgrammingError: syntax error"), w1)
      end.

(** [src_cur.fetchall()] *)
Definition src_cur_fetchall : M (list row) :=
  fun w => (Ok (src_result w), set_src_result [] w).

(** [src_cur.execute(select_sql)]: the server rejects a table it does not
    have, and otherwise hands the table's rows to the cursor. *)
Definition src_cur_execute_select (sql : string) (schema name : string) : M unit :=
  fun w =>
    let w1 := set_executed (executed w ++ [mkStmt SrcCur sql []]) w in
    match find_table (src_db w) schema name with
    | None => (Raise (Exception "UndefinedTable: relation does not exist"), w1)
    | Some t => (Ok tt, set_src_result (tbl_rows t) w1)
    end.

(** [src_cur.fetchmany(size)]: up to [size] rows, in the cursor's order,
    for a [size] that is not negative. *)
Definition src_cur_fetchmany (size : nat) : M (list row) :=
  fun w =>
    let n := S (fetch_calls w) in
    let w1 := set_fetch_calls n w in
    if fetch_fails F n
    then (Raise (Exception "DatabaseError: fetch failed"), w1)
    else (Ok (firstn size (src_result w)), set_src_result (skipn size (src_result w)) w1).

(** [tgt_cur.execute(insert_sql, row)] *)
Definition tgt_cur_execute_insert (sql : string) (r : row) : M unit :=
  fun w =>
    let w1 := set_executed (executed w ++ [mkStmt TgtCur sql r]) w in
    if insert_fails F r
    then (Raise (Exception "IntegrityError: insert rejected"), w1)
    else (Ok tt, set_tgt_pending (tgt_pending w ++ [r]) w1).

(** [tgt_conn.commit()] *)
Definition tgt_conn_commit : M unit :=
  fun w =>
    let n := S (commit_calls w) in
    let w1 := set_commit_calls n w in
    if commit_fails F n
    then (Raise (Exception "OperationalError: commit failed"), w1)
    else (Ok tt, set_tgt_pending [] (set_tgt_committed (tgt_committed w ++ tgt_pending w) w1)).

(** [tgt_conn.rollback()] *)
Definition tgt_conn_rollback : M unit :=
  fun w =>
    let n := S (rollback_calls w) in
    let w1 := set_rollback_calls n w in
    if rollback_fails F n
    then (Raise (Exception "OperationalError: rollback failed"), w1)
    else (Ok tt, set_tgt_pending [] w1).

(** [h.close()] *)
Definition close (h : handle) : M unit :=
  modify (fun w => set_closed (closed w ++ [h]) w).

(** [sys.exit(code)] *)
Definition sys_exit {A : Type} (code : Z) : M A := raise (SystemExit code).

(** ** migrate_table *)

(** [for idx, row in enumerate(rows, start=1): tgt_cur.execute(insert_sql, row)] *)
Fixpoint insert_rows (insert_sql : string) (rows : list row) : M unit :=
  match rows with
  | [] => ret tt
  | r :: rows' =>
      tgt_cur_execute_insert insert_sql r ;;
      insert_rows insert_sql rows'
  end.

(** The inner [try ... except Exception] of one chunk; the value is the
    running [total] after it. *)
Definition write_chunk (insert_sql : string) (rows : list row)
           (total chunk_num : nat) : M nat :=
  try_except
    (insert_rows insert_sql rows ;;
     tgt_conn_commit ;;
     let total := total + length rows in
     logging (LogChunkCommitted chunk_num total) ;;
     ret total)
    (fun e =>
       tgt_conn_rollback ;;
       logging (LogChunkError chunk_num e) ;;
       ret total).

(** The [while True] loop; [fuel] bounds the number of iterations of the
    model and the value is the final [total]. *)
Fixpoint transfer_loop (fuel : nat) (tgt_schema tgt_table cols_str placeholders : string)
         (chunk_size : nat) (total chunk_num : nat) : M nat :=
  match fuel with
  | O => out_of_fuel
  | S fuel' =>
      rows <- src_cur_fetchmany chunk_size ;;
      match rows with
      | [] => ret total
      | _ :: _ =>
          let chunk_num := chunk_num + 1 in
          logging (LogChunkPrepare chunk_num (length rows)) ;;
          let insert_sql := insert_sql_text tgt_schema tgt_table cols_str placeholders in
          total <- write_chunk insert_sql rows total chunk_num ;;
          transfer_loop fuel' tgt_schema tgt_table cols_str placeholders
                        chunk_size total chunk_num
      end
  end.

(** Lines 31-35: the column lookup and [columns = [row[0] for row in
    src_cur.fetchall()]]. *)
Definition introspect_columns (src_schema src_table : string) : M (list string) :=
  src_cur_execute_catalog catalog_sql src_schema src_table ;;
  fetched <- src_cur_fetchall ;;
  ret (map row0 fetched).

(** [chunk_size] is a non-negative [int]; the two endpoints are the servers
    the two configuration records designate. *)
Definition migrate_table (fuel : nat) (source_conf target_conf : conf)
           (src_schema src_table tgt_schema tgt_table : string)
           (chunk_size : nat) : M unit :=
  setup_logger ;;
  logging (LogStart src_schema src_table tgt_schema tgt_table chunk_size) ;;
  try_except
    (get_connection Source source_conf ;;
     get_connection Target target_conf ;;
     cursor Source ;;
     cursor Target ;;
     columns <- introspect_columns src_schema src_table ;;
     let cols_str := join ", " columns in
     let placeholders := join ", " (repeat "%s" (length columns)) in
     src_cur_execute_select (select_sql cols_str src_schema src_table)
                            src_schema src_table ;;
     total <- transfer_loop fuel tgt_schema tgt_table cols_str placeholders
                            chunk_size 0 0 ;;
     logging (LogTotal total src_schema src_table tgt_schema tgt_table) ;;
     close SrcCur ;;
     close SrcConn ;;
     close TgtCur ;;
     close TgtConn)
    (fun e =>
       logging (LogFatal e) ;;
       sys_exit 1).

End Program.

(** ** The log file that cannot be opened *)

(** [setup_logger()] when [logging.basicConfig(filename=...)] may fail to
    open the log file.  The call (line 22) comes before the [try] of
    [migrate_table], so what it raises is caught by nothing. *)
Definition setup_logger_or_raise (fails : bool) : M unit :=
  if fails
  then raise (Exception "OSError: cannot open the log file")
  else setup_logger.

(** A call of [migrate_table] with that possibility: the run of
    [migrate_table] above is the one in which the log file opens. *)
Definition migrate_table_logging (logger_fails : bool) (F : faults) (fuel : nat)
           (source_conf target_conf : conf)
           (src_schema src_table tgt_schema tgt_table : string)
           (chunk_size : nat) : M unit :=
  setup_logger_or_raise logger_fails ;;
  migrate_table F fuel source_conf target_conf src_schema src_table
                tgt_schema tgt_table chunk_size.

(** ** Reading a finished run *)

(** Sizes of the chunks the loop announced, in order. *)
Fixpoint chunk_sizes (l : list log_event) : list nat :=
  match l with
  | [] => []
  | LogChunkPrepare _ n :: l' => n :: chunk_sizes l'
  | _ :: l' => chunk_sizes l'
  end.

(** The totals of the closing line(s) [Trasferiti in totale ...]. *)
Fixpoint reported_totals (l : list log_event) : list nat :=
  match l with
  | [] => []
  | LogTotal n _ _ _ _ :: l' => n :: reported_totals l'
  | _ :: l' => reported_totals l'
  end.

(** The chunk numbers of the rolled-back chunks. *)
Fixpoint failed_chunks (l : list log_event) : list nat :=
  match l with
  | [] => []
  | LogChunkError k _ :: l' => k :: failed_chunks l'
  | _ :: l' => failed_chunks l'
  end.

Definition full_conf : conf :=
  [("host", VStr "localhost"); ("port", VInt 5432); ("database", VStr "db");
   ("user", VStr "u"); ("password", VStr "p")].

Definition ceil_div (r b : nat) : nat := (r + b - 1) / b.

Definition demo_rows : list row :=
  [[VInt 1; VStr "a"]; [VInt 2; VStr "b"]; [VInt 3; VStr "c"]].

Definition demo_table : table :=
  mkTable "public" "t" [("name", 2%Z); ("id", 1%Z)] demo_rows.

Definition demo_db : list table := [demo_table].

(** The target rejects the row whose first value is [2]. *)
Definition rejects_two : faults :=
  mkFaults (fun _ => false) false (fun _ => false)
           (fun r => match r with VInt 2 :: _ => true | _ => false end)
           (fun _ => false) (fun _ => false).

(** The target server refuses the connection. *)
Definition target_down : faults :=
  mkFaults (fun e => match e with Target => true | Source => false end) false
           (fun _ => false) (fun _ => false) (fun _ => false) (fun _ => false).

(** The second [fetchmany] raises. *)
Definition read_breaks : faults :=
  mkFaults (fun _ => false) false (fun n => Nat.eqb n 2) (fun _ => false)
           (fun _ => false) (fun _ => false).

(** A table whose only column has a space in its name. *)
Definition spaced_table : table :=
  mkTable "public" "t" [("first name", 1%Z)] [[VStr "x"]].

(** Every commit raises. *)
Definition commits_fail : faults :=
  mkFaults (fun _ => false) false (fun _ => false) (fun _ => false)
           (fun _ => true) (fun _ => false).

(** The target rejects the row whose first value is [2], and the rollback
    that follows raises. *)
Definition rollback_breaks : faults :=
  mkFaults (fun _ => false) false (fun _ => false)
           (fun r => match r with VInt 2 :: _ => true | _ => false end)
           (fun _ => false) (fun _ => true).

(** The chunk numbers the loop announced, in order. *)
Fixpoint announced_numbers (l : list log_event) : list nat :=
  match l with
  | [] => []
  | LogChunkPrepare k _ :: l' => k :: announced_numbers l'
  | _ :: l' => announced_numbers l'
  end.

(** The running totals of the lines [commit completato], in order. *)
Fixpoint committed_totals (l : list log_event) : list nat :=
  match l with
  | [] => []
  | LogChunkCommitted _ n :: l' => n :: committed_totals l'
  | _ :: l' => committed_totals l'
  end.

(** The partial sums of [sizes] above [start]. *)
Fixpoint running_sums (start : nat) (sizes : list nat) : list nat :=
  match sizes with
  | [] => []
  | n :: sizes' => (start + n) :: running_sums (start + n) sizes'
  end.

(** A configuration record without its [port]. *)
Definition conf_without_port : conf :=
  [("host", VStr "localhost"); ("database", VStr "db");
   ("user", VStr "u"); ("password", VStr "p")].

(** The handles in the order [migrate_table] opens them. *)
Definition all_handles : list handle := [SrcConn; TgtConn; SrcCur; TgtCur].

(** The number of occurrences of a character in a text. *)
Fixpoint count_char (c : ascii) (s : string) : nat :=
  match s with
  | EmptyString => 0
  | String d s' => (if Ascii.eqb d c then 1 else 0) + count_char c s'
  end.

Definition percent : ascii := ascii_of_nat 37.

Definition required_keys : list string :=
  ["host"; "port"; "database"; "user"; "password"].

(** The configuration dict has every key [get_connection] reads. *)
Definition conf_complete (c : conf) : bool :=
  forallb (fun k => match conf_get c k with Some _ => true | None => false end)
          required_keys.

(** Some call before the first [fetchmany] raises for a reason of the
    connection or of the column lookup. *)
Definition setup_fails (F : faults) (source_conf target_conf : conf) : bool :=
  negb (conf_complete source_conf) || connect_fails F Source ||
  negb (conf_complete target_conf) || connect_fails F Target ||
  catalog_query_fails F.

(** The column list the lookup yields for a table. *)
Definition columns_of (db : list table) (schema name : string) : list string :=
  map column_name (catalog_lookup db schema name).

(** The world in which the loop starts, when the setup went through. *)
Definition world_at_loop (w : world) (src_schema src_table tgt_schema tgt_table : string)
           (chunk_size : nat) (rows : list row) : world :=
  let cols_str := join ", " (columns_of (src_db w) src_schema src_table) in
  mkWorld (src_db w) rows (tgt_committed w) (tgt_pending w)
          (opened w ++ [SrcConn; TgtConn; SrcCur; TgtCur]) (closed w)
          (executed w ++
             [mkStmt SrcCur catalog_sql [VStr src_schema; VStr src_table];
              mkStmt SrcCur (select_sql cols_str src_schema src_table) []])
          (fetch_calls w) (commit_calls w) (rollback_calls w)
          (log w ++ [LogStart src_schema src_table tgt_schema tgt_table chunk_size]).

(** What [migrate_table] does with the outcome of the loop: the closing log
    line and the four [close] calls, or the outer [except] clause. *)
Definition finish (src_schema src_table tgt_schema tgt_table : string)
           (x : result nat * world) : result unit * world :=
  match x with
  | (Ok total, w) =>
      (Ok tt,
       set_closed (closed w ++ [SrcCur; SrcConn; TgtCur; TgtConn])
         (set_log (log w ++ [LogTotal total src_schema src_table tgt_schema tgt_table]) w))
  | (Raise (Exception msg), w) =>
      (Raise (SystemExit 1), set_log (log w ++ [LogFatal msg]) w)
  | (Raise (SystemExit c), w) => (Raise (SystemExit c), w)
  | (OutOfFuel, w) => (OutOfFuel, w)
  end.

(** The chunks a cursor holding [l] hands out to [fetchmany b], until the
    first empty one; [n] bounds their number. *)
Fixpoint chunks_upto (n b : nat) (l : list row) : list (list row) :=
  match n with
  | O => []
  | S n' =>
      match firstn b l with
      | [] => []
      | c => c :: chunks_upto n' b (skipn b l)
      end
  end.

Definition chunks (b : nat) (l : list row) : list (list row) :=
  chunks_upto (length l) b l.

Section Batches.

Variable F : faults.

(** The rows of a chunk the target takes before the first rejected one. *)
Fixpoint accepted (rows : list row) : list row :=
  match rows with
  | [] => []
  | r :: rows' => if insert_fails F r then [] else r :: accepted rows'
  end.

(** The rows of a chunk for which an insert is issued. *)
Fixpoint attempted (rows : list row) : list row :=
  match rows with
  | [] => []
  | r :: rows' => if insert_fails F r then [r] else r :: attempted rows'
  end.

(** A chunk the target takes whole. *)
Definition chunk_ok (rows : list row) : bool := negb (existsb (insert_fails F) rows).

(** What the [except] clause of a chunk does. *)
Definition chunk_handler (total chunk_num : nat) (detail : string) : M nat :=
  tgt_conn_rollback F ;;
  logging (LogChunkError chunk_num detail) ;;
  ret total.

(** The three ways a chunk can end, from a world with no pending row. *)
Inductive chunk_end (rows : list row) (total k : nat) (w : world)
  : result nat -> world -> Prop :=
| chunk_committed w' :
    existsb (insert_fails F) rows = false ->
    commit_fails F (S (commit_calls w)) = false ->
    tgt_committed w' = (tgt_committed w ++ rows)%list ->
    tgt_pending w' = [] ->
    commit_calls w' = S (commit_calls w) ->
    rollback_calls w' = rollback_calls w ->
    failed_chunks (log w') = failed_chunks (log w) ->
    chunk_end rows total k w (Ok (total + length rows)) w'
| chunk_rolled_back w' :
    existsb (insert_fails F) rows = true \/ commit_fails F (S (commit_calls w)) = true ->
    rollback_fails F (S (rollback_calls w)) = false ->
    tgt_committed w' = tgt_committed w ->
    tgt_pending w' = [] ->
    commit_calls w' =
      (if existsb (insert_fails F) rows then commit_calls w else S (commit_calls w)) ->
    rollback_calls w' = S (rollback_calls w) ->
    failed_chunks (log w') = (failed_chunks (log w) ++ [k])%list ->
    chunk_end rows total k w (Ok total) w'
| chunk_rollback_raised w' :
    existsb (insert_fails F) rows = true \/ commit_fails F (S (commit_calls w)) = true ->
    rollback_fails F (S (rollback_calls w)) = true ->
    tgt_committed w' = tgt_committed w ->
    commit_calls w' =
      (if existsb (insert_fails F) rows then commit_calls w else S (commit_calls w)) ->
    rollback_calls w' = S (rollback_calls w) ->
    chunk_end rows total k w (Raise (Exception "OperationalError: rollback failed")) w'.

(** The numbers, counted from [k + 1], of the chunks the target does not
    take whole. *)
Fixpoint rejected_numbers (k : nat) (cs : list (list row)) : list nat :=
  match cs with
  | [] => []
  | c :: cs' =>
      if chunk_ok c then rejected_numbers (S k) cs'
      else S k :: rejected_numbers (S k) cs'
  end.

End Batches.

(** What a chunk leaves alone: the source side, the handles and the
    announced chunk sizes. *)
Definition chunk_frame (w w' : world) : Prop :=
  src_db w' = src_db w /\ src_result w' = src_result w /\
  opened w' = opened w /\ closed w' = closed w /\
  fetch_calls w' = fetch_calls w /\
  chunk_sizes (log w') = chunk_sizes (log w) /\
  reported_totals (log w') = reported_totals (log w).


(** * Properties *)

Open Scope list_scope.
Open Scope nat_scope.

(** ** Chunking *)

Lemma chunks_upto_nil n b : chunks_upto n b [] = [].
Proof. destruct n, b; reflexivity. Qed.

Lemma chunks_upto_zero n l : chunks_upto n 0 l = [].
Proof. destruct n; reflexivity. Qed.

Lemma chunks_upto_short n b l :
  l <> [] -> length l <= b -> chunks_upto (S n) b l = [l].
Proof.
  intros Hl Hb. simpl.
  rewrite firstn_all2 by exact Hb.
  rewrite skipn_all2 by exact Hb.
  destruct l as [|r l]; [congruence|].
  now rewrite chunks_upto_nil.
Qed.

Lemma chunks_upto_long n b l :
  0 < b -> b <= length l ->
  chunks_upto (S n) b l = firstn b l :: chunks_upto n b (skipn b l).
Proof.
  intros Hb Hl. simpl.
  destruct (firstn b l) as [|r c] eqn:E; [|reflexivity].
  apply (f_equal (@length row)) in E.
  rewrite length_firstn in E. simpl in E. lia.
Qed.

(** More fuel than rows changes nothing. *)
Lemma chunks_upto_fuel n m b l :
  length l <= n -> length l <= m -> chunks_upto n b l = chunks_upto m b l.
Proof.
  revert m l.
  induction n as [|n IH]; intros m l Hn Hm.
  - destruct l; [now rewrite !chunks_upto_nil | simpl in Hn; lia].
  - destruct b as [|b]; [now rewrite !chunks_upto_zero|].
    destruct l as [|r l]; [now rewrite !chunks_upto_nil|].
    destruct m as [|m]; [simpl in Hm; lia|].
    destruct (Nat.le_gt_cases (S b) (length (r :: l))) as [Hlong|Hshort].
    + rewrite !chunks_upto_long by (simpl in *; lia).
      f_equal.
      assert (Hs : length (skipn (S b) (r :: l)) <= length l)
        by (rewrite length_skipn; simpl; lia).
      simpl in Hn, Hm. apply IH; lia.
    + now rewrite !chunks_upto_short by (simpl in *; try congruence; lia).
Qed.

Lemma chunks_upto_enough n b l :
  length l <= n -> chunks_upto n b l = chunks b l.
Proof. intros Hn. unfold chunks. now apply chunks_upto_fuel. Qed.

Lemma chunks_nil b : chunks b [] = [].
Proof. reflexivity. Qed.

Lemma chunks_short b l : l <> [] -> length l <= b -> chunks b l = [l].
Proof.
  intros Hl Hb. unfold chunks.
  destruct l as [|r l]; [congruence|].
  change (length (r :: l)) with (S (length l)).
  now apply chunks_upto_short.
Qed.

Lemma chunks_long b l :
  0 < b -> b <= length l -> chunks b l = firstn b l :: chunks b (skipn b l).
Proof.
  intros Hb Hl. unfold chunks at 1.
  destruct l as [|r l]; [simpl in Hl; lia|].
  change (length (r :: l)) with (S (length l)).
  rewrite chunks_upto_long by assumption.
  f_equal. apply chunks_upto_enough.
  rewrite length_skipn.
  change (length (r :: l)) with (S (length l)). lia.
Qed.

(** One step of the cursor, as the loop sees it. *)
Lemma chunks_step b l :
  0 < b -> l <> [] -> chunks b l = firstn b l :: chunks b (skipn b l).
Proof.
  intros Hb Hl.
  destruct (Nat.le_gt_cases b (length l)) as [Hlong|Hshort].
  - now apply chunks_long.
  - rewrite chunks_short by (try assumption; lia).
    rewrite firstn_all2 by lia. rewrite skipn_all2 by lia.
    now rewrite chunks_nil.
Qed.

Lemma chunks_ind (b : nat) (P : list row -> Prop) :
  0 < b ->
  P [] ->
  (forall l, l <> [] -> P (skipn b l) -> P l) ->
  forall l, P l.
Proof.
  intros Hb Hnil Hstep l.
  remember (length l) as n eqn:Hn.
  revert l Hn.
  induction n as [n IH] using lt_wf_ind.
  intros l Hn.
  destruct l as [|r l]; [exact Hnil|].
  apply Hstep; [congruence|].
  apply (IH (length (skipn b (r :: l)))); [|reflexivity].
  rewrite length_skipn. subst n.
  change (length (r :: l)) with (S (length l)). lia.
Qed.

Lemma concat_chunks b l : 0 < b -> concat (chunks b l) = l.
Proof.
  intros Hb. pattern l.
  apply (@chunks_ind b); [exact Hb | | clear l; intros l Hl IH].
  - reflexivity.
  - rewrite chunks_step by assumption. simpl.
    rewrite IH. apply firstn_skipn.
Qed.

Lemma chunks_nonempty b l c : 0 < b -> In c (chunks b l) -> c <> [].
Proof.
  intros Hb. pattern l.
  apply (@chunks_ind b); [exact Hb | | clear l; intros l Hl IH].
  - simpl. tauto.
  - rewrite chunks_step by assumption.
    intros [Hc|Hc]; [|now apply IH].
    subst c. intros E. apply (f_equal (@length row)) in E.
    rewrite length_firstn in E. destruct l; [congruence|simpl in E; lia].
Qed.

Lemma chunk_sizes_closed b l :
  0 < b ->
  map (@length row) (chunks b l) =
    repeat b (length l / b) ++
    (if length l mod b =? 0 then [] else [length l mod b]).
Proof.
  intros Hb. pattern l.
  apply (@chunks_ind b); [exact Hb | | clear l; intros l Hl IH].
  - rewrite chunks_nil. simpl.
    rewrite Nat.Div0.div_0_l, Nat.Div0.mod_0_l. reflexivity.
  - destruct (Nat.le_gt_cases b (length l)) as [Hlong|Hshort].
    + rewrite chunks_long by assumption. simpl map. rewrite IH.
      rewrite length_firstn, length_skipn.
      rewrite Nat.min_l by assumption.
      assert (Hq : length l / b = S ((length l - b) / b)).
      { symmetry. apply (Nat.div_unique _ b _ ((length l - b) mod b)).
        - apply Nat.mod_upper_bound. lia.
        - pose proof (Nat.div_mod_eq (length l - b) b). lia. }
      assert (Hr : length l mod b = (length l - b) mod b).
      { symmetry. apply (Nat.mod_unique _ b (S ((length l - b) / b))).
        - apply Nat.mod_upper_bound. lia.
        - pose proof (Nat.div_mod_eq (length l - b) b). lia. }
      rewrite Hq, Hr. reflexivity.
    + rewrite chunks_short by (try assumption; lia). simpl map.
      rewrite Nat.div_small by assumption.
      rewrite Nat.mod_small by assumption.
      destruct (length l =? 0) eqn:E.
      * apply Nat.eqb_eq in E. destruct l; [congruence|discriminate].
      * reflexivity.
Qed.

Lemma ceil_div_closed r b :
  0 < b -> ceil_div r b = r / b + (if r mod b =? 0 then 0 else 1).
Proof.
  intros Hb. unfold ceil_div.
  pose proof (Nat.div_mod_eq r b) as Hdm.
  pose proof (Nat.mod_upper_bound r b ltac:(lia)) as Hub.
  destruct (r mod b =? 0) eqn:E.
  - apply Nat.eqb_eq in E.
    symmetry. apply (Nat.div_unique _ b _ (b - 1)); [lia|].
    rewrite E in Hdm. lia.
  - apply Nat.eqb_neq in E.
    symmetry. apply (Nat.div_unique _ b _ (r mod b - 1)); [lia|].
    lia.
Qed.

Lemma length_chunks b l : 0 < b -> length (chunks b l) = ceil_div (length l) b.
Proof.
  intros Hb.
  rewrite <- (length_map (@length row)).
  rewrite chunk_sizes_closed by assumption.
  rewrite length_app, repeat_length, ceil_div_closed by assumption.
  destruct (length l mod b =? 0); reflexivity.
Qed.

(** ** Runs of the calls *)

Section Runs.

Variable F : faults.

Lemma existsb_accepted_all (rows : list row) :
  existsb (insert_fails F) rows = false -> accepted F rows = rows.
Proof.
  induction rows as [|r rows IH]; simpl; [reflexivity|].
  destruct (insert_fails F r); simpl; [discriminate|].
  intros H. now rewrite IH.
Qed.

Lemma accepted_prefix (rows : list row) :
  exists rest, rows = accepted F rows ++ rest.
Proof.
  induction rows as [|r rows [rest IH]]; simpl.
  - now exists [].
  - destruct (insert_fails F r).
    + now exists (r :: rows).
    + exists rest. simpl. now rewrite <- IH.
Qed.

(** The row loop inserts the rows up to the first rejected one and raises
    there, or inserts them all. *)
Lemma insert_rows_run (sql : string) (rows : list row) (w : world) :
  insert_rows F sql rows w =
    ((if existsb (insert_fails F) rows
      then Raise (Exception "IntegrityError: insert rejected")
      else Ok tt),
     set_tgt_pending (tgt_pending w ++ accepted F rows)
       (set_executed (executed w ++ map (mkStmt TgtCur sql) (attempted F rows)) w)).
Proof.
  revert w. induction rows as [|r rows IH]; intros [db res com pend op cl ex fc cc rc lg].
  - cbn. now rewrite !app_nil_r.
  - cbn [insert_rows existsb accepted attempted map].
    unfold bind, tgt_cur_execute_insert.
    cbn [executed tgt_pending set_executed set_tgt_pending src_db src_result
         tgt_committed opened closed fetch_calls commit_calls rollback_calls log].
    destruct (insert_fails F r) eqn:Hr.
    + cbn. now rewrite app_nil_r.
    + rewrite IH. cbn. now rewrite <- !app_assoc.
Qed.

Lemma write_chunk_run (sql : string) (rows : list row) (total k : nat) (w : world) :
  write_chunk F sql rows total k w =
    let w1 := set_tgt_pending (tgt_pending w ++ accepted F rows)
                (set_executed (executed w ++ map (mkStmt TgtCur sql) (attempted F rows)) w) in
    if existsb (insert_fails F) rows
    then chunk_handler F total k "IntegrityError: insert rejected" w1
    else
      let w2 := set_commit_calls (S (commit_calls w)) w1 in
      if commit_fails F (S (commit_calls w))
      then chunk_handler F total k "OperationalError: commit failed" w2
      else (Ok (total + length rows),
            set_log (log w ++ [LogChunkCommitted k (total + length rows)])
              (set_tgt_pending []
                 (set_tgt_committed (tgt_committed w ++ tgt_pending w ++ rows) w2))).
Proof.
  destruct w as [db res com pend op cl ex fc cc rc lg].
  unfold write_chunk, try_except, bind at 1.
  rewrite insert_rows_run.
  destruct (existsb (insert_fails F) rows) eqn:Hany.
  - reflexivity.
  - cbv zeta. unfold bind at 1, tgt_conn_commit. cbn.
    destruct (commit_fails F (S cc)) eqn:Hc.
    + reflexivity.
    + cbn. rewrite (existsb_accepted_all _ Hany). reflexivity.
Qed.

Lemma chunk_handler_run (total k : nat) (detail : string) (w : world) :
  chunk_handler F total k detail w =
    let w1 := set_rollback_calls (S (rollback_calls w)) w in
    if rollback_fails F (S (rollback_calls w))
    then (Raise (Exception "OperationalError: rollback failed"), w1)
    else (Ok total,
          set_log (log w ++ [LogChunkError k detail]) (set_tgt_pending [] w1)).
Proof.
  destruct w as [db res com pend op cl ex fc cc rc lg].
  unfold chunk_handler, bind, tgt_conn_rollback, logging, modify, ret. cbn.
  destruct (rollback_fails F (S rc)); reflexivity.
Qed.


Lemma chunk_sizes_app (l l' : list log_event) :
  chunk_sizes (l ++ l') = chunk_sizes l ++ chunk_sizes l'.
Proof.
  induction l as [|e l IH]; simpl; [reflexivity|].
  destruct e; simpl; now rewrite ?IH.
Qed.

Lemma reported_totals_app (l l' : list log_event) :
  reported_totals (l ++ l') = reported_totals l ++ reported_totals l'.
Proof.
  induction l as [|e l IH]; simpl; [reflexivity|].
  destruct e; simpl; now rewrite ?IH.
Qed.

Lemma failed_chunks_app (l l' : list log_event) :
  failed_chunks (l ++ l') = failed_chunks l ++ failed_chunks l'.
Proof.
  induction l as [|e l IH]; simpl; [reflexivity|].
  destruct e; simpl; now rewrite ?IH.
Qed.

Lemma write_chunk_end (sql : string) (rows : list row) (total k : nat) (w : world) :
  tgt_pending w = [] ->
  chunk_end F rows total k w (fst (write_chunk F sql rows total k w))
                             (snd (write_chunk F sql rows total k w)).
Proof.
  destruct w as [db rs com pend op cl ex fc cc rc lg].
  cbn [tgt_pending]. intros Hp. subst pend.
  rewrite write_chunk_run. cbv zeta.
  destruct (existsb (insert_fails F) rows) eqn:Hany.
  - rewrite chunk_handler_run. cbv zeta. cbn.
    destruct (rollback_fails F (S rc)) eqn:Hr; cbn.
    + apply chunk_rollback_raised; cbn; rewrite ?Hany; auto.
    + apply chunk_rolled_back; cbn; rewrite ?Hany, ?failed_chunks_app; auto.
  - cbn. destruct (commit_fails F (S cc)) eqn:Hc.
    + rewrite chunk_handler_run. cbv zeta. cbn.
      destruct (rollback_fails F (S rc)) eqn:Hr; cbn.
      * apply chunk_rollback_raised; cbn; rewrite ?Hany; auto.
      * apply chunk_rolled_back; cbn; rewrite ?Hany, ?failed_chunks_app; auto.
    + cbn. apply chunk_committed; cbn; rewrite ?failed_chunks_app; cbn;
        rewrite ?app_nil_r; auto.
Qed.

Lemma write_chunk_frame (sql : string) (rows : list row) (total k : nat) (w : world) :
  chunk_frame w (snd (write_chunk F sql rows total k w)).
Proof.
  rewrite write_chunk_run. cbv zeta. unfold chunk_frame.
  destruct (existsb (insert_fails F) rows);
    [|destruct (commit_fails F (S (commit_calls w)))];
    rewrite ?chunk_handler_run; cbv zeta;
    try destruct (rollback_fails F _); simpl;
    rewrite ?chunk_sizes_app, ?reported_totals_app; simpl;
    rewrite ?app_nil_r; repeat split; reflexivity.
Qed.

Lemma write_chunk_fuel (sql : string) (rows : list row) (total k : nat) (w : world) :
  fst (write_chunk F sql rows total k w) <> OutOfFuel.
Proof.
  rewrite write_chunk_run. cbv zeta.
  destruct (existsb (insert_fails F) rows);
    [|destruct (commit_fails F (S (commit_calls w)))];
    rewrite ?chunk_handler_run; cbv zeta;
    try destruct (rollback_fails F _); simpl; discriminate.
Qed.

(** One turn of the [while True] loop. *)
Lemma transfer_loop_unfold (fuel : nat) (ts tt cs ph : string) (b total k : nat)
      (w : world) :
  transfer_loop F (S fuel) ts tt cs ph b total k w =
    let w1 := set_fetch_calls (S (fetch_calls w)) w in
    if fetch_fails F (S (fetch_calls w))
    then (Raise (Exception "DatabaseError: fetch failed"), w1)
    else
      let w2 := set_src_result (skipn b (src_result w)) w1 in
      match firstn b (src_result w) with
      | [] => (Ok total, w2)
      | r :: rs =>
          let w3 := set_log (log w ++ [LogChunkPrepare (k + 1) (length (r :: rs))]) w2 in
          match write_chunk F (insert_sql_text ts tt cs ph) (r :: rs) total (k + 1) w3 with
          | (Ok t, w') => transfer_loop F fuel ts tt cs ph b t (k + 1) w'
          | (Raise e, w') => (Raise e, w')
          | (OutOfFuel, w') => (OutOfFuel, w')
          end
      end.
Proof.
  cbn [transfer_loop]. unfold bind at 1, src_cur_fetchmany.
  destruct (fetch_fails F (S (fetch_calls w))); [reflexivity|].
  cbv zeta.
  destruct (firstn b (src_result w)) as [|r rs]; reflexivity.
Qed.

Lemma firstn_cons_skipn_shorter (b : nat) (l : list row) (r : row) (rs : list row) :
  firstn b l = r :: rs -> length (skipn b l) < length l.
Proof.
  intros E. rewrite length_skipn.
  destruct b as [|b]; [discriminate|].
  destruct l as [|x l]; [discriminate|]. simpl. lia.
Qed.

Lemma transfer_loop_fuel (ts tt cs ph : string) (b : nat) :
  forall (fuel : nat) (w : world) (total k : nat),
    length (src_result w) < fuel ->
    fst (transfer_loop F fuel ts tt cs ph b total k w) <> OutOfFuel /\
    fetch_calls (snd (transfer_loop F fuel ts tt cs ph b total k w))
      <= fetch_calls w + S (length (src_result w)).
Proof.
  induction fuel as [|fuel IH]; intros w total k Hfuel; [lia|].
  rewrite transfer_loop_unfold. cbv zeta.
  destruct (fetch_fails F (S (fetch_calls w))).
  { simpl. split; [discriminate | lia]. }
  destruct (firstn b (src_result w)) as [|r rs] eqn:Hrows.
  { simpl. split; [discriminate | lia]. }
  pose proof (firstn_cons_skipn_shorter _ _ Hrows) as Hshort.
  match goal with
  | |- context [write_chunk F ?sql ?rows ?t ?n ?w0] =>
      pose proof (write_chunk_frame sql rows t n w0) as Hframe;
      pose proof (write_chunk_fuel sql rows t n w0) as Hnf;
      destruct (write_chunk F sql rows t n w0) as [[t'|e|] w'] eqn:Hwc
  end; simpl in Hframe, Hnf.
  - destruct Hframe as (_ & Hres & _ & _ & Hfc & _).
    simpl in Hres, Hfc.
    destruct (IH w' t' (k + 1)) as [H1 H2]; [rewrite Hres; lia|].
    split; [exact H1|]. rewrite Hres, Hfc in H2. lia.
  - destruct Hframe as (_ & _ & _ & _ & Hfc & _). simpl in Hfc.
    simpl. split; [discriminate | lia].
  - congruence.
Qed.

Lemma firstn_nil_inv (b : nat) (l : list row) : 0 < b -> firstn b l = [] -> l = [].
Proof.
  intros Hb E. destruct b as [|b]; [lia|]. destruct l; [reflexivity|discriminate].
Qed.

Section Reliable.

(** Reads, commits and rollbacks go through; inserts may be rejected. *)
Hypothesis fetch_ok : forall n, fetch_fails F n = false.
Hypothesis commit_ok : forall n, commit_fails F n = false.
Hypothesis rollback_ok : forall n, rollback_fails F n = false.

Lemma transfer_loop_run (ts tt cs ph : string) (b : nat) :
  0 < b ->
  forall (fuel : nat) (w : world) (total k : nat),
    length (src_result w) < fuel ->
    tgt_pending w = [] ->
    exists w',
      transfer_loop F fuel ts tt cs ph b total k w =
        (Ok (total + length (concat (filter (chunk_ok F) (chunks b (src_result w))))), w') /\
      tgt_committed w' =
        tgt_committed w ++ concat (filter (chunk_ok F) (chunks b (src_result w))) /\
      tgt_pending w' = [] /\
      commit_calls w' =
        commit_calls w + length (filter (chunk_ok F) (chunks b (src_result w))) /\
      rollback_calls w' =
        rollback_calls w +
        length (filter (fun c => negb (chunk_ok F c)) (chunks b (src_result w))) /\
      chunk_sizes (log w') =
        chunk_sizes (log w) ++ map (@length row) (chunks b (src_result w)) /\
      reported_totals (log w') = reported_totals (log w) /\
      fetch_calls w' = fetch_calls w + S (length (chunks b (src_result w))) /\
      opened w' = opened w /\ closed w' = closed w /\ src_db w' = src_db w /\
      failed_chunks (log w') =
        failed_chunks (log w) ++ rejected_numbers F k (chunks b (src_result w)).
Proof.
  intros Hb.
  induction fuel as [|fuel IH]; intros w total k Hfuel Hpend; [lia|].
  rewrite transfer_loop_unfold. cbv zeta. rewrite fetch_ok.
  destruct (firstn b (src_result w)) as [|r rs] eqn:Hrows.
  { apply (firstn_nil_inv _ Hb) in Hrows. rewrite Hrows, chunks_nil. simpl.
    rewrite Nat.add_0_r.
    eexists. split; [reflexivity|]. simpl.
    rewrite !app_nil_r, ?Nat.add_0_r. repeat split; auto; lia. }
  assert (Hne : src_result w <> []) by (intros E; rewrite E, firstn_nil in Hrows; discriminate).
  pose proof (firstn_cons_skipn_shorter _ _ Hrows) as Hshort.
  rewrite (chunks_step Hb Hne), Hrows.
  match goal with
  | |- context [write_chunk F ?sql ?rows ?t ?n ?w0] =>
      pose proof (write_chunk_frame sql rows t n w0) as Hframe;
      pose proof (@write_chunk_end sql rows t n w0 Hpend) as Hend;
      destruct (write_chunk F sql rows t n w0) as [res w1] eqn:Hwc
  end.
  simpl in Hframe, Hend.
  destruct Hframe as (Hdb & Hres & Hop & Hcl & Hfc & Hcs & Hrt).
  simpl in Hdb, Hres, Hop, Hcl, Hfc, Hcs, Hrt.
  rewrite chunk_sizes_app in Hcs. simpl in Hcs.
  rewrite reported_totals_app in Hrt. simpl in Hrt. rewrite app_nil_r in Hrt.
  assert (Hfl0 : forall e, failed_chunks (log w ++ [LogChunkPrepare (k + 1) e])
                           = failed_chunks (log w))
    by (intros e; rewrite failed_chunks_app; simpl; apply app_nil_r).
  inversion Hend as [w0 Hany _ Hcom Hpe Hcc Hrc Hfl | w0 Hwhy _ Hcom Hpe Hcc Hrc Hfl
                    | w0 _ Hraise]; subst;
    try (cbn [log set_log] in Hfl; rewrite Hfl0 in Hfl).
  - (* the chunk was committed *)
    destruct (IH w1 (total + length (r :: rs)) (k + 1)) as (w' & Hrun & IHf);
      [rewrite Hres; lia | exact Hpe |].
    exists w'. rewrite Hrun, Hres.
    destruct IHf as (H1 & H2 & H3 & H4 & H5 & H6 & H7 & H8 & H9 & H10 & H11).
    assert (Hok : chunk_ok F (r :: rs) = true) by (unfold chunk_ok; now rewrite Hany).
    cbn [filter rejected_numbers]. rewrite Hok. cbn [negb concat map].
    rewrite <- (Nat.add_1_r k).
    rewrite H1, H3, H4, H5, H6, H7, H8, H9, H10, H11, Hres, Hcom, Hcc, Hrc, Hcs, Hrt,
      Hfc, Hop, Hcl, Hdb, Hfl.
    cbn [tgt_committed commit_calls rollback_calls fetch_calls opened closed src_db
         set_log set_src_result set_fetch_calls].
    rewrite !length_app, <- !app_assoc. cbn [length app].
    repeat split; try reflexivity; try assumption; try lia.
    f_equal. f_equal. lia.
  - (* the chunk was rolled back *)
    destruct Hwhy as [Hany|Hc]; [|rewrite commit_ok in Hc; discriminate].
    rewrite Hany in Hcc.
    destruct (IH w1 total (k + 1)) as (w' & Hrun & IHf);
      [rewrite Hres; lia | exact Hpe |].
    exists w'. rewrite Hrun, Hres.
    destruct IHf as (H1 & H2 & H3 & H4 & H5 & H6 & H7 & H8 & H9 & H10 & H11).
    assert (Hok : chunk_ok F (r :: rs) = false) by (unfold chunk_ok; now rewrite Hany).
    cbn [filter rejected_numbers]. rewrite Hok. cbn [negb concat map].
    rewrite <- (Nat.add_1_r k).
    rewrite H1, H3, H4, H5, H6, H7, H8, H9, H10, H11, Hres, Hcom, Hcc, Hrc, Hcs, Hrt,
      Hfc, Hop, Hcl, Hdb, Hfl.
    cbn [tgt_committed commit_calls rollback_calls fetch_calls opened closed src_db
         set_log set_src_result set_fetch_calls].
    rewrite <- ?app_assoc. cbn [length app].
    repeat split; try reflexivity; try assumption; try lia.
  - rewrite rollback_ok in Hraise. discriminate.
Qed.

End Reliable.

End Runs.

(** ** The column lookup, as the server reads it *)

(** The text the code sends is read as: select [column_name], where
    [table_schema] and [table_name] equal the two parameters, ordered by
    [ordinal_position]. *)
Lemma parse_catalog_sql :
  parse_catalog_query catalog_sql =
    Some (mkQuery FColumnName [FTableSchema; FTableName] (Some FOrdinalPosition)).
Proof. vm_compute. reflexivity. Qed.

Lemma insert_by_ordinal_position (c : column_info) (l : list column_info) :
  insert_by (field_value FOrdinalPosition) c l = insert_by_ordinal c l.
Proof.
  induction l as [|d l IH]; simpl; [reflexivity|]. now rewrite IH.
Qed.

Lemma order_by_ordinal_position (l : list column_info) :
  order_by (field_value FOrdinalPosition) l = order_by_ordinal l.
Proof.
  unfold order_by, order_by_ordinal.
  induction l as [|c l IH]; simpl; [reflexivity|].
  now rewrite IH, insert_by_ordinal_position.
Qed.

Lemma where_holds_schema_and_table (schema name : string) (c : column_info) :
  where_holds [FTableSchema; FTableName] [VStr schema; VStr name] c =
    where_table schema name c.
Proof.
  unfold where_table. simpl. now rewrite andb_true_r.
Qed.

(** What the server answers to the text of the code. *)
Lemma server_catalog_sql (db : list table) (schema name : string) :
  server_catalog_query db catalog_sql [VStr schema; VStr name] =
    Some (map (fun c => [VStr (column_name c)]) (catalog_lookup db schema name)).
Proof.
  unfold server_catalog_query. rewrite parse_catalog_sql.
  unfold run_catalog_query, catalog_lookup.
  cbn [q_where q_order_by q_select length Nat.eqb field_value].
  rewrite order_by_ordinal_position.
  rewrite (filter_ext _ _ (where_holds_schema_and_table schema name)).
  reflexivity.
Qed.

(** ** The setup and the whole run *)

Section WholeRun.

Variable F : faults.

Lemma get_connection_run (e : endpoint) (c : conf) (w : world) :
  conf_complete c = true ->
  get_connection F e c w =
    if connect_fails F e
    then (Raise (Exception "OperationalError: could not connect"), w)
    else (Ok tt, set_opened (opened w ++ [conn_of e]) w).
Proof.
  unfold conf_complete, required_keys, forallb. intros H.
  unfold get_connection, subscript, bind.
  destruct (conf_get c "host"); [|discriminate].
  destruct (conf_get c "port"); [|discriminate].
  destruct (conf_get c "database"); [|discriminate].
  destruct (conf_get c "user"); [|discriminate].
  destruct (conf_get c "password"); [|discriminate].
  reflexivity.
Qed.

Lemma get_connection_missing (e : endpoint) (c : conf) (w : world) :
  conf_complete c = false ->
  exists key, get_connection F e c w = (Raise (Exception ("KeyError: " ++ key)%string), w).
Proof.
  unfold conf_complete, required_keys, forallb. intros H.
  unfold get_connection, subscript, bind.
  destruct (conf_get c "host"); [|now exists "host"%string].
  destruct (conf_get c "port"); [|now exists "port"%string].
  destruct (conf_get c "database"); [|now exists "database"%string].
  destruct (conf_get c "user"); [|now exists "user"%string].
  destruct (conf_get c "password"); [discriminate|now exists "password"%string].
Qed.

Lemma introspect_columns_run (schema name : string) (w : world) :
  introspect_columns F schema name w =
    let w1 := set_executed
                (executed w ++ [mkStmt SrcCur catalog_sql [VStr schema; VStr name]]) w in
    if catalog_query_fails F
    then (Raise (Exception "DatabaseError: catalog query failed"), w1)
    else (Ok (columns_of (src_db w) schema name), set_src_result [] w1).
Proof.
  unfold introspect_columns, bind, src_cur_execute_catalog, src_cur_fetchall, ret.
  cbv zeta.
  destruct (catalog_query_fails F); [reflexivity|].
  rewrite server_catalog_sql.
  unfold columns_of. cbn [src_result set_src_result].
  rewrite map_map. cbn [row0]. reflexivity.
Qed.

Lemma migrate_table_run (fuel : nat) (source_conf target_conf : conf)
      (src_schema src_table tgt_schema tgt_table : string) (chunk_size : nat)
      (w : world) (t : table) :
  conf_complete source_conf = true ->
  conf_complete target_conf = true ->
  connect_fails F Source = false ->
  connect_fails F Target = false ->
  catalog_query_fails F = false ->
  find_table (src_db w) src_schema src_table = Some t ->
  let columns := columns_of (src_db w) src_schema src_table in
  migrate_table F fuel source_conf target_conf src_schema src_table
                tgt_schema tgt_table chunk_size w =
    finish src_schema src_table tgt_schema tgt_table
      (transfer_loop F fuel tgt_schema tgt_table (join ", " columns)
         (join ", " (repeat "%s"%string (length columns))) chunk_size 0 0
         (world_at_loop w src_schema src_table tgt_schema tgt_table chunk_size
                        (tbl_rows t))).
Proof.
  destruct w as [db res com pend op cl ex fc cc rc lg].
  intros Hsc Htc Hs Ht Hq Hfind columns.
  cbn [src_db] in Hfind, columns.
  unfold migrate_table, setup_logger, try_except.
  unfold bind at 1 2. unfold ret at 1. unfold logging at 1, modify at 1.
  unfold bind at 1. rewrite (get_connection_run _ _ _ Hsc), Hs.
  unfold bind at 1. rewrite (get_connection_run _ _ _ Htc), Ht.
  unfold bind at 1 2, cursor, modify.
  unfold bind at 1. rewrite introspect_columns_run, Hq. cbv zeta.
  unfold bind at 1, src_cur_execute_select.
  cbn [src_db set_src_result set_executed set_opened set_log].
  rewrite Hfind.
  unfold bind at 1.
  match goal with
  | |- match (match transfer_loop F fuel ?a ?b ?c ?d ?e ?f ?g ?w0 with _ => _ end) with _ => _ end
       = finish _ _ _ _ (transfer_loop F fuel ?a' ?b' ?c' ?d' ?e' ?f' ?g' ?w1) =>
      replace w0 with w1 by (cbn; now rewrite <- !app_assoc)
  end.
  fold columns.
  destruct (transfer_loop _ _ _ _ _ _ _ _ _ _)
    as [[total|[msg|code]|] [db' res' com' pend' op' cl' ex' fc' cc' rc' lg']];
    cbn; now rewrite <- ?app_assoc.
Qed.

End WholeRun.

(** ** Sizes of the chunks of a table of [r] rows *)

Lemma sizes_full_but_last (b q r i : nat) :
  S i < length (repeat b q ++ (if r =? 0 then [] else [r])) ->
  nth i (repeat b q ++ (if r =? 0 then [] else [r])) 0 = b.
Proof.
  intros Hi. rewrite length_app, repeat_length in Hi.
  assert (Hq : i < q) by (destruct (r =? 0); simpl in Hi; lia).
  rewrite app_nth1 by (now rewrite repeat_length).
  apply nth_repeat_lt. exact Hq.
Qed.

Lemma sizes_last (b q r : nat) :
  0 < q + r ->
  last (repeat b q ++ (if r =? 0 then [] else [r])) 0 = if r =? 0 then b else r.
Proof.
  intros Hpos. destruct (r =? 0) eqn:E.
  - rewrite app_nil_r. apply Nat.eqb_eq in E.
    destruct q as [|q]; [lia|].
    replace (S q) with (q + 1) by lia.
    rewrite repeat_app. simpl. apply last_last.
  - apply last_last.
Qed.

Lemma filter_chunk_ok_all (F : faults) (cs : list (list row)) :
  (forall r, insert_fails F r = false) ->
  filter (chunk_ok F) cs = cs /\ filter (fun c => negb (chunk_ok F c)) cs = [].
Proof.
  intros Hno.
  assert (Hok : forall c, chunk_ok F c = true).
  { intros c. unfold chunk_ok. induction c as [|r c IH]; simpl; [reflexivity|].
    rewrite Hno. exact IH. }
  induction cs as [|c cs [IH1 IH2]]; simpl; [now split|].
  rewrite Hok. simpl. now rewrite IH1, IH2.
Qed.

(** ** The fault-free run *)

(** C1. With a batch size [b >= 1] and a source table of [R] rows, a run in
    which no connection, read or insert fails returns normally, commits
    exactly the [R] rows into the target, and attempts [ceil(R/b)] chunks,
    one commit each: every chunk but the last has [b] rows and the last has
    [R mod b] rows, or [b] when [R mod b = 0] and [R > 0]; the reported
    total is [R]. *)
Theorem migrate_table_fault_free
        (fuel : nat) (source_conf target_conf : conf)
        (src_schema src_table tgt_schema tgt_table : string) (b : nat)
        (db : list table) (tgt : list row) (t : table) :
  1 <= b ->
  conf_complete source_conf = true ->
  conf_complete target_conf = true ->
  find_table db src_schema src_table = Some t ->
  length (tbl_rows t) < fuel ->
  let R := length (tbl_rows t) in
  let run := migrate_table no_faults fuel source_conf target_conf src_schema src_table
                           tgt_schema tgt_table b (initial_world db tgt) in
  let sizes := chunk_sizes (log (snd run)) in
  fst run = Ok tt /\
  tgt_committed (snd run) = tgt ++ tbl_rows t /\
  length (tgt_committed (snd run)) = length tgt + R /\
  commit_calls (snd run) = ceil_div R b /\
  rollback_calls (snd run) = 0 /\
  length sizes = ceil_div R b /\
  (forall i, S i < length sizes -> nth i sizes 0 = b) /\
  (0 < R -> last sizes 0 = if R mod b =? 0 then b else R mod b) /\
  reported_totals (log (snd run)) = [R].
Proof.
  intros Hb Hsc Htc Hfind Hfuel R run sizes.
  assert (Hrun : run =
    finish src_schema src_table tgt_schema tgt_table
      (transfer_loop no_faults fuel tgt_schema tgt_table
         (join ", " (columns_of db src_schema src_table))
         (join ", " (repeat "%s"%string (length (columns_of db src_schema src_table))))
         b 0 0
         (world_at_loop (initial_world db tgt) src_schema src_table tgt_schema
                        tgt_table b (tbl_rows t)))).
  { unfold run. now rewrite (@migrate_table_run no_faults) with (t := t). }
  match type of Hrun with
  | _ = finish _ _ _ _ (transfer_loop _ _ ?ts ?tt ?cs ?ph _ _ _ ?w0) =>
      destruct (@transfer_loop_run no_faults (fun _ => eq_refl) (fun _ => eq_refl)
                  (fun _ => eq_refl) ts tt cs ph b Hb fuel w0 0 0 Hfuel eq_refl)
        as (w' & Hloop & Hcom & _ & Hcc & Hrc & Hcs & Hrt & _)
  end.
  destruct (@filter_chunk_ok_all no_faults (chunks b (tbl_rows t)) (fun _ => eq_refl))
    as [Hall Hnone].
  cbn [world_at_loop src_result tgt_committed commit_calls rollback_calls log
       initial_world] in Hloop, Hcom, Hcc, Hrc, Hcs, Hrt.
  rewrite Hall in Hloop, Hcom, Hcc. rewrite Hnone in Hrc.
  rewrite (concat_chunks _ Hb) in Hloop, Hcom.
  rewrite (length_chunks _ Hb) in Hcc.
  assert (Hsizes : sizes = repeat b (R / b) ++ (if R mod b =? 0 then [] else [R mod b])).
  { unfold sizes. rewrite Hrun, Hloop. cbn [finish snd log set_closed set_log].
    rewrite chunk_sizes_app, Hcs. simpl. rewrite app_nil_r.
    apply chunk_sizes_closed. exact Hb. }
  assert (Hlen : length sizes = ceil_div R b).
  { unfold sizes. rewrite Hrun, Hloop. cbn [finish snd log set_closed set_log].
    rewrite chunk_sizes_app, Hcs. simpl. rewrite app_nil_r, length_map.
    apply length_chunks. exact Hb. }
  repeat split.
  - rewrite Hrun, Hloop. reflexivity.
  - rewrite Hrun, Hloop. simpl. exact Hcom.
  - rewrite Hrun, Hloop. simpl. rewrite Hcom. apply length_app.
  - rewrite Hrun, Hloop. simpl. exact Hcc.
  - rewrite Hrun, Hloop. simpl. exact Hrc.
  - exact Hlen.
  - intros i Hi. rewrite Hsizes in *. now apply sizes_full_but_last.
  - intros HR. rewrite Hsizes. apply sizes_last.
    pose proof (Nat.div_mod_eq R b). destruct (R / b); [|lia]. lia.
  - rewrite Hrun, Hloop. cbn [finish snd log set_closed set_log].
    rewrite reported_totals_app, Hrt. reflexivity.
Qed.

(** C1 at a table of three rows and a batch size of two. *)
Lemma migrate_table_fault_free_witness :
  let run := migrate_table no_faults 4 full_conf full_conf "public" "t" "public" "t2" 2
                           (initial_world demo_db []) in
  fst run = Ok tt /\ tgt_committed (snd run) = demo_rows /\ commit_calls (snd run) = 2.
Proof.
  destruct (@migrate_table_fault_free 4 full_conf full_conf "public" "t" "public" "t2" 2
              demo_db [] demo_table
              (le_S 1 1 (le_n 1)) eq_refl eq_refl eq_refl (le_n 4))
    as (H1 & H2 & _ & H3 & _).
  exact (conj H1 (conj H2 H3)).
Defined.

(** The scenario of 1250 rows and a batch size of 500: chunks of 500, 500
    and 250 rows, three commits, a reported total of 1250. *)
Example migrate_table_1250_by_500 :
  let rows := map (fun i => [VInt (Z.of_nat i); VStr "x"]) (seq 1 1250) in
  let db := [mkTable "public" "large_table" [("id", 1%Z); ("name", 2%Z)] rows] in
  let run := migrate_table no_faults 1251 full_conf full_conf "public" "large_table"
                           "public" "large_table" 500 (initial_world db []) in
  fst run = Ok tt /\
  chunk_sizes (log (snd run)) = [500; 500; 250] /\
  commit_calls (snd run) = 3 /\
  reported_totals (log (snd run)) = [1250] /\
  tgt_committed (snd run) = rows.
Proof. vm_compute. repeat split. Qed.

(** An empty source table: no chunk, no commit, a normal return. *)
Example migrate_table_empty_table :
  let db := [mkTable "public" "empty_table" [("id", 1%Z); ("name", 2%Z)] []] in
  let run := migrate_table no_faults 1 full_conf full_conf "public" "empty_table"
                           "public" "empty_table" 500 (initial_world db []) in
  fst run = Ok tt /\ commit_calls (snd run) = 0 /\ chunk_sizes (log (snd run)) = [] /\
  reported_totals (log (snd run)) = [0].
Proof. vm_compute. repeat split. Qed.

(** ** One chunk is all or nothing *)

Section Atomicity.

Variable F : faults.

Lemma attempted_all (rows : list row) :
  existsb (insert_fails F) rows = false -> attempted F rows = rows.
Proof.
  induction rows as [|r rows IH]; simpl; [reflexivity|].
  destruct (insert_fails F r); simpl; [discriminate|].
  intros H. now rewrite IH.
Qed.

(** C2. Writing one chunk from a world with no pending row: if the insert
    of any row fails, no commit is issued, [rollback] is called and the
    committed rows of the target are what they were (and the transaction is
    empty again once the rollback went through); the committed rows change
    only by the whole chunk, and a commit is issued only after an insert was
    executed for every row of the chunk. *)
Theorem write_chunk_all_or_nothing
        (sql : string) (rows : list row) (total k : nat) (w : world) :
  tgt_pending w = [] ->
  let res := write_chunk F sql rows total k w in
  (existsb (insert_fails F) rows = true ->
     tgt_committed (snd res) = tgt_committed w /\
     commit_calls (snd res) = commit_calls w /\
     rollback_calls (snd res) = S (rollback_calls w) /\
     (rollback_fails F (S (rollback_calls w)) = false ->
        tgt_pending (snd res) = [] /\ fst res = Ok total)) /\
  (tgt_committed (snd res) = tgt_committed w \/
   tgt_committed (snd res) = tgt_committed w ++ rows) /\
  (commit_calls (snd res) = S (commit_calls w) ->
     existsb (insert_fails F) rows = false /\
     executed (snd res) = executed w ++ map (mkStmt TgtCur sql) rows) /\
  (tgt_committed (snd res) <> tgt_committed w ->
     commit_calls (snd res) = S (commit_calls w) /\ fst res = Ok (total + length rows)).
Proof.
  destruct w as [db rs com pend op cl ex fc cc rc lg].
  cbn [tgt_pending]. intros Hp. subst pend. cbv zeta.
  rewrite write_chunk_run. cbv zeta.
  destruct (existsb (insert_fails F) rows) eqn:Hany.
  - rewrite chunk_handler_run. cbv zeta.
    cbn [rollback_calls set_tgt_pending set_executed src_db src_result tgt_committed
         tgt_pending opened closed executed fetch_calls commit_calls log].
    destruct (rollback_fails F (S rc)) eqn:Hr; cbn;
      (repeat split; try discriminate; try tauto; try (intros; lia);
       try (intros H; exfalso; apply (n_Sn cc); exact H)).
  - rewrite (@attempted_all rows Hany), (@existsb_accepted_all F rows Hany).
    cbn [rollback_calls set_tgt_pending set_executed set_commit_calls src_db src_result
         tgt_committed tgt_pending opened closed executed fetch_calls commit_calls log].
    destruct (commit_fails F (S cc)) eqn:Hc.
    + rewrite chunk_handler_run. cbv zeta.
      cbn [rollback_calls set_tgt_pending set_executed set_commit_calls src_db
           src_result tgt_committed tgt_pending opened closed executed fetch_calls
           commit_calls log].
      destruct (rollback_fails F (S rc)) eqn:Hr; cbn;
        (repeat split; try discriminate; try tauto).
    + cbn. repeat split; try discriminate; try tauto.
Qed.

(** Every chunk of the loop starts with an empty transaction, so whatever
    fails and wherever the loop stops, the target has grown by whole chunks
    only. *)
Lemma transfer_loop_commits_whole_chunks (ts tt cs ph : string) (b : nat) :
  0 < b ->
  forall (fuel : nat) (w : world) (total k : nat),
    tgt_pending w = [] ->
    exists sel,
      Forall (fun c => In c (chunks b (src_result w)) /\ chunk_ok F c = true) sel /\
      tgt_committed (snd (transfer_loop F fuel ts tt cs ph b total k w)) =
        tgt_committed w ++ concat sel.
Proof.
  intros Hb.
  induction fuel as [|fuel IH]; intros w total k Hpend.
  { exists []. simpl. now rewrite app_nil_r. }
  rewrite transfer_loop_unfold. cbv zeta.
  destruct (fetch_fails F (S (fetch_calls w))).
  { exists []. simpl. now rewrite app_nil_r. }
  destruct (firstn b (src_result w)) as [|r rs] eqn:Hrows.
  { exists []. simpl. now rewrite app_nil_r. }
  assert (Hne : src_result w <> [])
    by (intros E; rewrite E, firstn_nil in Hrows; discriminate).
  rewrite (chunks_step Hb Hne), Hrows.
  match goal with
  | |- context [write_chunk F ?sql ?rows ?t ?n ?w0] =>
      pose proof (write_chunk_frame F sql rows t n w0) as Hframe;
      pose proof (@write_chunk_end F sql rows t n w0 Hpend) as Hend;
      destruct (write_chunk F sql rows t n w0) as [res w1] eqn:Hwc
  end.
  simpl in Hframe, Hend.
  destruct Hframe as (_ & Hres & _). simpl in Hres.
  inversion Hend as [w0 Hany _ Hcom Hpe _ _ _ | w0 _ _ Hcom Hpe _ _ _
                    | w0 _ _ Hcom _ _]; subst.
  - destruct (IH w1 (total + length (r :: rs)) (k + 1) Hpe) as (sel & Hsel & Hc).
    exists ((r :: rs) :: sel). rewrite Hres in Hsel. split.
    + constructor.
      * split; [now left | unfold chunk_ok; now rewrite Hany].
      * eapply Forall_impl; [|exact Hsel]. intros c [Hin Hok]. split; [now right|exact Hok].
    + rewrite Hc, Hcom. simpl. now rewrite <- app_assoc.
  - destruct (IH w1 total (k + 1) Hpe) as (sel & Hsel & Hc).
    exists sel. rewrite Hres in Hsel. split.
    + eapply Forall_impl; [|exact Hsel]. intros c [Hin Hok]. split; [now right|exact Hok].
    + now rewrite Hc, Hcom.
  - exists []. split; [constructor|].
    simpl in Hcom |- *. now rewrite app_nil_r.
Qed.

End Atomicity.

(** C2 at the chunk [(1,'a'), (2,'b')] whose second row is rejected. *)
Lemma write_chunk_all_or_nothing_witness :
  let res := write_chunk rejects_two "INSERT" [[VInt 1; VStr "a"]; [VInt 2; VStr "b"]]
                         0 1 (initial_world demo_db []) in
  tgt_committed (snd res) = [] /\ tgt_pending (snd res) = [] /\ fst res = Ok 0.
Proof.
  destruct (@write_chunk_all_or_nothing rejects_two "INSERT"
              [[VInt 1; VStr "a"]; [VInt 2; VStr "b"]] 0 1
              (initial_world demo_db []) eq_refl) as (H & _).
  destruct (H eq_refl) as (H1 & _ & _ & H2).
  destruct (H2 eq_refl) as (H3 & H4).
  exact (conj H1 (conj H3 H4)).
Defined.

(** ** A rejected chunk does not stop the run *)

Lemma filter_split_length (A : Type) (f : A -> bool) (l : list A) :
  length (filter f l) + length (filter (fun x => negb (f x)) l) = length l.
Proof.
  induction l as [|x l IH]; simpl; [reflexivity|].
  destruct (f x); simpl; lia.
Qed.

Lemma rejected_numbers_length (F : faults) (k : nat) (cs : list (list row)) :
  length (rejected_numbers F k cs) = length (filter (fun c => negb (chunk_ok F c)) cs).
Proof.
  revert k. induction cs as [|c cs IH]; intros k; simpl; [reflexivity|].
  destruct (chunk_ok F c); simpl; now rewrite IH.
Qed.

(** C3. When the setup goes through and reads, commits and rollbacks do
    not fail, rejected inserts do not stop the run: with [N] the number of
    chunks of the table, all [N] chunks are attempted; exactly the chunks
    without a rejected row are committed, one commit each; every other chunk
    is rolled back and logged with its number, so commits and rollbacks add
    up to [N]; the call returns normally and the exit status is zero. *)
Theorem migrate_table_continues_after_write_failure
        (F : faults) (fuel : nat) (source_conf target_conf : conf)
        (src_schema src_table tgt_schema tgt_table : string) (b : nat)
        (db : list table) (tgt : list row) (t : table) :
  1 <= b ->
  conf_complete source_conf = true ->
  conf_complete target_conf = true ->
  connect_fails F Source = false ->
  connect_fails F Target = false ->
  catalog_query_fails F = false ->
  (forall n, fetch_fails F n = false) ->
  (forall n, commit_fails F n = false) ->
  (forall n, rollback_fails F n = false) ->
  find_table db src_schema src_table = Some t ->
  length (tbl_rows t) < fuel ->
  let batches := chunks b (tbl_rows t) in
  let run := migrate_table F fuel source_conf target_conf src_schema src_table
                           tgt_schema tgt_table b (initial_world db tgt) in
  fst run = Ok tt /\
  exit_status (fst run) = Some 0%Z /\
  chunk_sizes (log (snd run)) = map (@length row) batches /\
  tgt_committed (snd run) = tgt ++ concat (filter (chunk_ok F) batches) /\
  commit_calls (snd run) = length (filter (chunk_ok F) batches) /\
  rollback_calls (snd run) = length (filter (fun c => negb (chunk_ok F c)) batches) /\
  failed_chunks (log (snd run)) = rejected_numbers F 0 batches /\
  commit_calls (snd run) + length (failed_chunks (log (snd run))) = length batches.
Proof.
  intros Hb Hsc Htc Hs Ht Hq Hfetch Hcommit Hroll Hfind Hfuel batches run.
  assert (Hrun : run =
    finish src_schema src_table tgt_schema tgt_table
      (transfer_loop F fuel tgt_schema tgt_table
         (join ", " (columns_of db src_schema src_table))
         (join ", " (repeat "%s"%string (length (columns_of db src_schema src_table))))
         b 0 0
         (world_at_loop (initial_world db tgt) src_schema src_table tgt_schema
                        tgt_table b (tbl_rows t)))).
  { unfold run. now rewrite (@migrate_table_run F) with (t := t). }
  match type of Hrun with
  | _ = finish _ _ _ _ (transfer_loop _ _ ?ts ?tt ?cs ?ph _ _ _ ?w0) =>
      destruct (@transfer_loop_run F Hfetch Hcommit Hroll ts tt cs ph b Hb fuel w0 0 0
                  Hfuel eq_refl)
        as (w' & Hloop & Hcom & _ & Hcc & Hrc & Hcs & _ & _ & _ & _ & _ & Hfl)
  end.
  cbn [world_at_loop src_result tgt_committed commit_calls rollback_calls log
       initial_world] in Hloop, Hcom, Hcc, Hrc, Hcs, Hfl.
  fold batches in Hloop, Hcom, Hcc, Hrc, Hcs, Hfl.
  assert (Hfailed : failed_chunks (log (snd run)) = rejected_numbers F 0 batches).
  { rewrite Hrun, Hloop. cbn [finish snd log set_closed set_log].
    rewrite failed_chunks_app, Hfl. simpl. now rewrite app_nil_r. }
  assert (Hcommits : commit_calls (snd run) = length (filter (chunk_ok F) batches)).
  { rewrite Hrun, Hloop. simpl. exact Hcc. }
  repeat split.
  - rewrite Hrun, Hloop. reflexivity.
  - rewrite Hrun, Hloop. reflexivity.
  - rewrite Hrun, Hloop. cbn [finish snd log set_closed set_log].
    rewrite chunk_sizes_app, Hcs. simpl. now rewrite app_nil_r.
  - rewrite Hrun, Hloop. simpl. exact Hcom.
  - exact Hcommits.
  - rewrite Hrun, Hloop. simpl. exact Hrc.
  - exact Hfailed.
  - rewrite Hfailed, Hcommits, rejected_numbers_length. apply filter_split_length.
Qed.

(** C3 at the scenario of three rows in chunks of two, the row [(2,'b')]
    being rejected: chunk 1 is rolled back, chunk 2 is committed. *)
Lemma migrate_table_continues_after_write_failure_witness :
  let run := migrate_table rejects_two 4 full_conf full_conf "public" "t" "public" "t2" 2
                           (initial_world demo_db []) in
  fst run = Ok tt /\
  exit_status (fst run) = Some 0%Z /\
  chunk_sizes (log (snd run)) = [2; 1] /\
  tgt_committed (snd run) = [[VInt 3; VStr "c"]] /\
  failed_chunks (log (snd run)) = [1].
Proof.
  destruct (@migrate_table_continues_after_write_failure rejects_two 4 full_conf
              full_conf "public" "t" "public" "t2" 2 demo_db [] demo_table
              (le_S 1 1 (le_n 1)) eq_refl eq_refl eq_refl eq_refl eq_refl
              (fun _ => eq_refl) (fun _ => eq_refl) (fun _ => eq_refl)
              eq_refl (le_n 4))
    as (H1 & H2 & H3 & H4 & _ & _ & H5 & _).
  exact (conj H1 (conj H2 (conj H3 (conj H4 H5)))).
Defined.

(** ** The running total *)

Section Accounting.

Variable F : faults.

(** Reads and rollbacks go through; inserts and commits may fail. *)
Hypothesis fetch_ok : forall n, fetch_fails F n = false.
Hypothesis rollback_ok : forall n, rollback_fails F n = false.

Lemma transfer_loop_accounting (ts tt cs ph : string) (b : nat) :
  0 < b ->
  forall (fuel : nat) (w : world) (total k : nat),
    length (src_result w) < fuel ->
    tgt_pending w = [] ->
    exists (w' : world) (sel : list (list row)),
      transfer_loop F fuel ts tt cs ph b total k w = (Ok (total + length (concat sel)), w') /\
      Forall (fun c => In c (chunks b (src_result w)) /\ chunk_ok F c = true) sel /\
      tgt_committed w' = tgt_committed w ++ concat sel /\
      tgt_pending w' = [] /\
      reported_totals (log w') = reported_totals (log w).
Proof.
  intros Hb.
  induction fuel as [|fuel IH]; intros w total k Hfuel Hpend; [lia|].
  rewrite transfer_loop_unfold. cbv zeta. rewrite fetch_ok.
  destruct (firstn b (src_result w)) as [|r rs] eqn:Hrows.
  { exists (set_src_result (skipn b (src_result w))
              (set_fetch_calls (S (fetch_calls w)) w)), [].
    simpl. rewrite Nat.add_0_r, app_nil_r. repeat split; auto. }
  assert (Hne : src_result w <> [])
    by (intros E; rewrite E, firstn_nil in Hrows; discriminate).
  pose proof (firstn_cons_skipn_shorter _ _ Hrows) as Hshort.
  rewrite (chunks_step Hb Hne), Hrows.
  match goal with
  | |- context [write_chunk F ?sql ?rows ?t ?n ?w0] =>
      pose proof (write_chunk_frame F sql rows t n w0) as Hframe;
      pose proof (@write_chunk_end F sql rows t n w0 Hpend) as Hend;
      destruct (write_chunk F sql rows t n w0) as [res w1] eqn:Hwc
  end.
  simpl in Hframe, Hend.
  destruct Hframe as (_ & Hres & _ & _ & _ & _ & Hrt).
  simpl in Hres, Hrt.
  rewrite reported_totals_app in Hrt. simpl in Hrt. rewrite app_nil_r in Hrt.
  inversion Hend as [w0 Hany _ Hcom Hpe _ _ _ | w0 _ _ Hcom Hpe _ _ _
                    | w0 _ Hraise]; subst.
  - destruct (IH w1 (total + length (r :: rs)) (k + 1)) as (w' & sel & Hrun & Hsel & IHf);
      [rewrite Hres; lia | exact Hpe |].
    destruct IHf as (H1 & H2 & H3).
    exists w', ((r :: rs) :: sel). rewrite Hrun, Hres in *.
    cbn [concat]. rewrite length_app.
    repeat split.
    + f_equal. f_equal. lia.
    + constructor.
      * split; [now left | unfold chunk_ok; now rewrite Hany].
      * eapply Forall_impl; [|exact Hsel]. intros c [Hin Hok]. split; [now right|exact Hok].
    + rewrite H1, Hcom. simpl. now rewrite <- app_assoc.
    + exact H2.
    + now rewrite H3, Hrt.
  - destruct (IH w1 total (k + 1)) as (w' & sel & Hrun & Hsel & IHf);
      [rewrite Hres; lia | exact Hpe |].
    destruct IHf as (H1 & H2 & H3).
    exists w', sel. rewrite Hrun, Hres in *.
    repeat split.
    + eapply Forall_impl; [|exact Hsel]. intros c [Hin Hok]. split; [now right|exact Hok].
    + rewrite H1, Hcom. reflexivity.
    + exact H2.
    + now rewrite H3, Hrt.
  - rewrite rollback_ok in Hraise. discriminate.
Qed.

End Accounting.

(** C9. When the setup goes through and reads and rollbacks do not fail,
    whatever inserts and commits do: the run returns normally, the target
    grows by whole chunks without a rejected row, and the total of the
    closing log line is the number of rows the run committed; a chunk that
    was rolled back adds nothing to either. *)
Theorem migrate_table_total_is_committed_rows
        (F : faults) (fuel : nat) (source_conf target_conf : conf)
        (src_schema src_table tgt_schema tgt_table : string) (b : nat)
        (db : list table) (tgt : list row) (t : table) :
  1 <= b ->
  conf_complete source_conf = true ->
  conf_complete target_conf = true ->
  connect_fails F Source = false ->
  connect_fails F Target = false ->
  catalog_query_fails F = false ->
  (forall n, fetch_fails F n = false) ->
  (forall n, rollback_fails F n = false) ->
  find_table db src_schema src_table = Some t ->
  length (tbl_rows t) < fuel ->
  let run := migrate_table F fuel source_conf target_conf src_schema src_table
                           tgt_schema tgt_table b (initial_world db tgt) in
  fst run = Ok tt /\
  (exists sel,
      Forall (fun c => In c (chunks b (tbl_rows t)) /\ chunk_ok F c = true) sel /\
      tgt_committed (snd run) = tgt ++ concat sel) /\
  reported_totals (log (snd run)) = [length (tgt_committed (snd run)) - length tgt].
Proof.
  intros Hb Hsc Htc Hs Ht Hq Hfetch Hroll Hfind Hfuel run.
  assert (Hrun : run =
    finish src_schema src_table tgt_schema tgt_table
      (transfer_loop F fuel tgt_schema tgt_table
         (join ", " (columns_of db src_schema src_table))
         (join ", " (repeat "%s"%string (length (columns_of db src_schema src_table))))
         b 0 0
         (world_at_loop (initial_world db tgt) src_schema src_table tgt_schema
                        tgt_table b (tbl_rows t)))).
  { unfold run. now rewrite (@migrate_table_run F) with (t := t). }
  match type of Hrun with
  | _ = finish _ _ _ _ (transfer_loop _ _ ?ts ?tt ?cs ?ph _ _ _ ?w0) =>
      destruct (@transfer_loop_accounting F Hfetch Hroll ts tt cs ph b Hb fuel w0 0 0
                  Hfuel eq_refl)
        as (w' & sel & Hloop & Hsel & Hcom & _ & Hrt)
  end.
  cbn [world_at_loop src_result tgt_committed log initial_world] in Hloop, Hsel, Hcom, Hrt.
  rewrite Hrun, Hloop. cbn [finish fst snd log tgt_committed set_closed set_log].
  split; [reflexivity|]. split.
  - exists sel. split; [exact Hsel | exact Hcom].
  - rewrite reported_totals_app, Hrt, Hcom, length_app. simpl.
    f_equal. lia.
Qed.

(** C9 at the scenario of three rows in chunks of two with [(2,'b')]
    rejected: one row is committed and the reported total is one. *)
Lemma migrate_table_total_is_committed_rows_witness :
  let run := migrate_table rejects_two 4 full_conf full_conf "public" "t" "public" "t2" 2
                           (initial_world demo_db []) in
  fst run = Ok tt /\
  reported_totals (log (snd run)) = [length (tgt_committed (snd run)) - 0].
Proof.
  destruct (@migrate_table_total_is_committed_rows rejects_two 4 full_conf
              full_conf "public" "t" "public" "t2" 2 demo_db [] demo_table
              (le_S 1 1 (le_n 1)) eq_refl eq_refl eq_refl eq_refl eq_refl
              (fun _ => eq_refl) (fun _ => eq_refl) eq_refl (le_n 4))
    as (H1 & _ & H2).
  exact (conj H1 H2).
Defined.

(** ** The fatal setup path *)

(** The world a failed setup leaves: only the handles opened and the
    statements executed so far vary, and nothing was closed. *)
Lemma migrate_table_setup_failure_run
      (F : faults) (fuel : nat) (source_conf target_conf : conf)
      (src_schema src_table tgt_schema tgt_table : string) (b : nat)
      (db : list table) (tgt : list row) :
  setup_fails F source_conf target_conf = true ->
  exists op ex detail,
    migrate_table F fuel source_conf target_conf src_schema src_table
                  tgt_schema tgt_table b (initial_world db tgt) =
      (Raise (SystemExit 1),
       mkWorld db [] tgt [] op [] ex 0 0 0
               [LogStart src_schema src_table tgt_schema tgt_table b; LogFatal detail]).
Proof.
  unfold setup_fails. intros Hfail.
  unfold migrate_table, setup_logger, try_except.
  unfold bind at 1 2. unfold ret at 1. unfold logging at 1, modify at 1.
  unfold bind at 1.
  destruct (conf_complete source_conf) eqn:Hsc.
  2: { match goal with
       | |- context [get_connection F Source source_conf ?w0] =>
           destruct (@get_connection_missing F Source source_conf w0 Hsc) as [key Hk]
       end.
       rewrite Hk. cbn. now do 3 eexists. }
  rewrite (@get_connection_run F Source _ _ Hsc).
  destruct (connect_fails F Source) eqn:Hs.
  { cbn. now do 3 eexists. }
  unfold bind at 1.
  destruct (conf_complete target_conf) eqn:Htc.
  2: { match goal with
       | |- context [get_connection F Target target_conf ?w0] =>
           destruct (@get_connection_missing F Target target_conf w0 Htc) as [key Hk]
       end.
       rewrite Hk. cbn. now do 3 eexists. }
  rewrite (@get_connection_run F Target _ _ Htc).
  destruct (connect_fails F Target) eqn:Ht.
  { cbn. now do 3 eexists. }
  simpl in Hfail.
  unfold bind at 1 2, cursor, modify.
  unfold bind at 1. rewrite introspect_columns_run, Hfail.
  cbn. now do 3 eexists.
Qed.

(** C4. If opening the source or the target connection fails (the
    configuration lacks a key or the server refuses), or the column lookup
    fails, then no chunk is attempted, [fetchmany] and [commit] are never
    called, the target is untouched, the error is logged and the process
    ends through [sys.exit(1)]. *)
Theorem migrate_table_setup_failure_is_fatal
        (F : faults) (fuel : nat) (source_conf target_conf : conf)
        (src_schema src_table tgt_schema tgt_table : string) (b : nat)
        (db : list table) (tgt : list row) :
  setup_fails F source_conf target_conf = true ->
  let run := migrate_table F fuel source_conf target_conf src_schema src_table
                           tgt_schema tgt_table b (initial_world db tgt) in
  fst run = Raise (SystemExit 1) /\
  exit_status (fst run) = Some 1%Z /\
  chunk_sizes (log (snd run)) = [] /\
  fetch_calls (snd run) = 0 /\
  commit_calls (snd run) = 0 /\
  tgt_committed (snd run) = tgt /\
  tgt_pending (snd run) = [] /\
  exists detail,
    log (snd run) =
      [LogStart src_schema src_table tgt_schema tgt_table b; LogFatal detail].
Proof.
  intros Hfail run.
  destruct (@migrate_table_setup_failure_run F fuel source_conf target_conf src_schema
              src_table tgt_schema tgt_table b db tgt Hfail) as (op & ex & detail & Hrun).
  unfold run. rewrite Hrun. cbn.
  repeat split. now exists detail.
Qed.

(** C4 when the target server refuses the connection. *)
Lemma migrate_table_setup_failure_is_fatal_witness :
  let run := migrate_table target_down 4 full_conf full_conf "public" "t" "public" "t2" 2
                           (initial_world demo_db []) in
  fst run = Raise (SystemExit 1) /\ commit_calls (snd run) = 0 /\
  chunk_sizes (log (snd run)) = [].
Proof.
  destruct (@migrate_table_setup_failure_is_fatal target_down 4 full_conf full_conf
              "public" "t" "public" "t2" 2 demo_db [] eq_refl)
    as (H1 & _ & H2 & _ & H3 & _).
  exact (conj H1 (conj H3 H2)).
Defined.

(** ** Termination of the transfer loop *)

(** C10. Whatever the faults and the batch size, a cursor holding finitely
    many rows makes the loop stop: with more fuel than rows left the model
    never runs out of fuel, and [fetchmany] is called at most once per row
    left plus once for the empty batch that ends the loop. *)
Theorem transfer_loop_terminates
        (F : faults) (tgt_schema tgt_table cols_str placeholders : string)
        (chunk_size fuel : nat) (w : world) (total chunk_num : nat) :
  length (src_result w) < fuel ->
  let run := transfer_loop F fuel tgt_schema tgt_table cols_str placeholders
                           chunk_size total chunk_num w in
  fst run <> OutOfFuel /\
  fetch_calls (snd run) <= fetch_calls w + S (length (src_result w)).
Proof.
  intros Hfuel. cbv zeta. now apply transfer_loop_fuel.
Qed.

(** C10 at a cursor holding three rows, read two at a time. *)
Lemma transfer_loop_terminates_witness :
  fst (transfer_loop no_faults 4 "public" "t2" "id, name" "%s, %s" 2 0 0
         (set_src_result demo_rows (initial_world demo_db []))) <> OutOfFuel.
Proof.
  exact (proj1 (@transfer_loop_terminates no_faults "public" "t2" "id, name" "%s, %s"
                  2 4 (set_src_result demo_rows (initial_world demo_db [])) 0 0
                  (le_n 4))).
Defined.

(** The loop ends at the first empty batch. *)
Lemma transfer_loop_stops_on_empty_batch
      (F : faults) (ts tt cs ph : string) (b fuel : nat) (w : world) (total k : nat) :
  fetch_fails F (S (fetch_calls w)) = false ->
  firstn b (src_result w) = [] ->
  transfer_loop F (S fuel) ts tt cs ph b total k w =
    (Ok total, set_src_result (skipn b (src_result w))
                 (set_fetch_calls (S (fetch_calls w)) w)).
Proof.
  intros Hf He. rewrite transfer_loop_unfold. cbv zeta. now rewrite Hf, He.
Qed.

(** ** The handles *)

(** The loop opens and closes nothing. *)
Lemma transfer_loop_handles (F : faults) (ts tt cs ph : string) (b : nat) :
  forall (fuel : nat) (w : world) (total k : nat),
    opened (snd (transfer_loop F fuel ts tt cs ph b total k w)) = opened w /\
    closed (snd (transfer_loop F fuel ts tt cs ph b total k w)) = closed w.
Proof.
  induction fuel as [|fuel IH]; intros w total k; [now split|].
  rewrite transfer_loop_unfold. cbv zeta.
  destruct (fetch_fails F (S (fetch_calls w))); [now split|].
  destruct (firstn b (src_result w)) as [|r rs]; [now split|].
  match goal with
  | |- context [write_chunk F ?sql ?rows ?t ?n ?w0] =>
      pose proof (write_chunk_frame F sql rows t n w0) as Hframe;
      destruct (write_chunk F sql rows t n w0) as [[t'|e|] w'] eqn:Hwc
  end; simpl in Hframe; destruct Hframe as (_ & _ & Hop & Hcl & _);
    simpl in Hop, Hcl.
  - destruct (IH w' t' (k + 1)) as [H1 H2]. now rewrite H1, H2, Hop, Hcl.
  - now split.
  - now split.
Qed.

(** When the setup went through, the four handles are closed exactly when
    the loop ends without an exception. *)
Lemma migrate_table_closes_on_return_only
      (F : faults) (fuel : nat) (source_conf target_conf : conf)
      (src_schema src_table tgt_schema tgt_table : string) (b : nat)
      (db : list table) (tgt : list row) (t : table) :
  setup_fails F source_conf target_conf = false ->
  find_table db src_schema src_table = Some t ->
  let run := migrate_table F fuel source_conf target_conf src_schema src_table
                           tgt_schema tgt_table b (initial_world db tgt) in
  opened (snd run) = [SrcConn; TgtConn; SrcCur; TgtCur] /\
  closed (snd run) =
    match fst run with
    | Ok _ => [SrcCur; SrcConn; TgtCur; TgtConn]
    | _ => []
    end.
Proof.
  intros Hsetup Hfind run. unfold setup_fails in Hsetup.
  repeat (apply orb_false_elim in Hsetup; destruct Hsetup as [Hsetup ?]).
  repeat match goal with
         | H : negb _ = false |- _ => apply negb_false_iff in H
         end.
  unfold run.
  rewrite (@migrate_table_run F) with (t := t) by assumption.
  match goal with
  | |- context [transfer_loop F fuel ?ts ?tt ?cs ?ph b 0 0 ?w0] =>
      destruct (@transfer_loop_handles F ts tt cs ph b fuel w0 0 0) as [Hop Hcl];
      destruct (transfer_loop F fuel ts tt cs ph b 0 0 w0) as [[total|[msg|code]|] w']
  end; cbn in Hop, Hcl |- *; rewrite ?Hop, ?Hcl; now split.
Qed.

(** C5, where the code leaves it: the source connection is open when the
    target refuses to connect, and all four handles are open when the second
    [fetchmany] raises; both runs end through [sys.exit(1)] without a single
    [close]. *)
Theorem migrate_table_fatal_paths_close_nothing :
  (let run := migrate_table target_down 4 full_conf full_conf "public" "t" "public" "t2" 2
                            (initial_world demo_db []) in
   fst run = Raise (SystemExit 1) /\
   opened (snd run) = [SrcConn] /\ closed (snd run) = []) /\
  (let run := migrate_table read_breaks 4 full_conf full_conf "public" "t" "public" "t2" 2
                            (initial_world demo_db []) in
   fst run = Raise (SystemExit 1) /\
   opened (snd run) = [SrcConn; TgtConn; SrcCur; TgtCur] /\ closed (snd run) = [] /\
   commit_calls (snd run) = 1).
Proof. vm_compute. repeat split. Qed.

(** ** Schema introspection *)

Lemma insert_by_ordinal_perm (c : column_info) (l : list column_info) :
  Permutation (insert_by_ordinal c l) (c :: l).
Proof.
  induction l as [|d l IH]; simpl; [apply Permutation_refl|].
  destruct (ordinal_position c <=? ordinal_position d)%Z.
  - apply Permutation_refl.
  - eapply perm_trans; [apply perm_skip, IH | apply perm_swap].
Qed.

Lemma order_by_ordinal_perm (l : list column_info) :
  Permutation (order_by_ordinal l) l.
Proof.
  induction l as [|c l IH]; simpl; [apply perm_nil|].
  eapply perm_trans; [apply insert_by_ordinal_perm | now apply perm_skip].
Qed.

Lemma insert_by_ordinal_hd (c d : column_info) (l : list column_info) :
  by_ordinal d c -> HdRel by_ordinal d l -> HdRel by_ordinal d (insert_by_ordinal c l).
Proof.
  intros Hdc Hd. destruct l as [|e l]; simpl.
  - now constructor.
  - destruct (ordinal_position c <=? ordinal_position e)%Z.
    + now constructor.
    + constructor. now inversion Hd.
Qed.

Lemma insert_by_ordinal_sorted (c : column_info) (l : list column_info) :
  Sorted by_ordinal l -> Sorted by_ordinal (insert_by_ordinal c l).
Proof.
  induction 1 as [|d l Hs IH Hd]; simpl.
  - repeat constructor.
  - destruct (ordinal_position c <=? ordinal_position d)%Z eqn:E.
    + apply Z.leb_le in E. constructor; [now constructor | now constructor].
    + apply Z.leb_gt in E. constructor; [exact IH|].
      apply insert_by_ordinal_hd; [unfold by_ordinal; lia | exact Hd].
Qed.

Lemma order_by_ordinal_sorted (l : list column_info) :
  Sorted by_ordinal (order_by_ordinal l).
Proof.
  induction l as [|c l IH]; simpl; [constructor|].
  now apply insert_by_ordinal_sorted.
Qed.

(** The catalog lines of a schema and table name are the columns of the
    tables of that name. *)
Lemma catalog_filter (db : list table) (schema name : string) :
  filter (where_table schema name) (information_schema_columns db) =
  information_schema_columns (filter (is_table schema name) db).
Proof.
  unfold information_schema_columns.
  induction db as [|t db IH]; simpl; [reflexivity|].
  rewrite filter_app, IH.
  assert (Hcols : forall cols,
    filter (where_table schema name)
      (map (fun c => mkColumn (tbl_schema t) (tbl_name t) (fst c) (snd c)) cols) =
    if is_table schema name t
    then map (fun c => mkColumn (tbl_schema t) (tbl_name t) (fst c) (snd c)) cols
    else []).
  { induction cols as [|c cols IHc]; simpl.
    - now destruct (is_table schema name t).
    - rewrite IHc. unfold where_table, is_table. simpl.
      now destruct (String.eqb (tbl_schema t) schema && String.eqb (tbl_name t) name). }
  rewrite Hcols. now destruct (is_table schema name t).
Qed.

Lemma find_none_filter_nil (A : Type) (f : A -> bool) (l : list A) :
  find f l = None -> filter f l = [].
Proof.
  induction l as [|x l IH]; simpl; [reflexivity|].
  destruct (f x); [discriminate | exact IH].
Qed.

(** A table the server does not have has no line in the catalog. *)
Lemma catalog_lookup_missing (db : list table) (schema name : string) :
  find_table db schema name = None -> catalog_lookup db schema name = [].
Proof.
  unfold find_table, catalog_lookup. intros H.
  now rewrite catalog_filter, (find_none_filter_nil _ _ H).
Qed.

(** C7. The code sends the server the text [catalog_sql] with the schema
    and the table name as bound parameters.  The server reads that text as
    a read-only query, so the source is left as it was and sending it again
    gives the same outcome; unless the query itself errors, the outcome is
    the column names of the catalog lines of the named table, in the order
    of their ordinal position, as the [WHERE] and [ORDER BY] of the text
    ask. *)
Theorem introspect_columns_deterministic
        (F : faults) (schema name : string) (w : world) :
  let first := introspect_columns F schema name w in
  let second := introspect_columns F schema name (snd first) in
  fst second = fst first /\
  src_db (snd first) = src_db w /\
  executed (snd first) =
    executed w ++ [mkStmt SrcCur catalog_sql [VStr schema; VStr name]] /\
  exists lines,
    Sorted by_ordinal lines /\
    Permutation lines
      (information_schema_columns (filter (is_table schema name) (src_db w))) /\
    fst first =
      (if catalog_query_fails F
       then Raise (Exception "DatabaseError: catalog query failed")
       else Ok (map column_name lines)) /\
    server_catalog_query (src_db w) catalog_sql [VStr schema; VStr name] =
      Some (map (fun c => [VStr (column_name c)]) lines).
Proof.
  destruct w as [db rs com pend op cl ex fc cc rc lg].
  cbv zeta.
  unfold introspect_columns, bind, src_cur_execute_catalog, src_cur_fetchall, ret.
  cbn [src_db executed set_executed set_src_result src_result tgt_committed tgt_pending
       opened closed fetch_calls commit_calls rollback_calls log].
  assert (Hperm : Permutation (catalog_lookup db schema name)
            (information_schema_columns (filter (is_table schema name) db))).
  { unfold catalog_lookup. rewrite <- catalog_filter. apply order_by_ordinal_perm. }
  pose proof (order_by_ordinal_sorted
                (filter (where_table schema name) (information_schema_columns db)))
    as Hsorted.
  pose proof (server_catalog_sql db schema name) as Hserver.
  destruct (catalog_query_fails F) eqn:Hq.
  - cbn. repeat split.
    exists (catalog_lookup db schema name). repeat split; assumption.
  - rewrite Hserver.
    cbn [fst snd src_db executed set_executed set_src_result src_result].
    rewrite Hserver. cbn [fst snd].
    split; [reflexivity|]. split; [reflexivity|]. split; [reflexivity|].
    exists (catalog_lookup db schema name).
    split; [exact Hsorted|]. split; [exact Hperm|]. split; [|reflexivity].
    rewrite map_map. reflexivity.
Qed.

(** The server reads the text it is sent: without the [ORDER BY] the lines
    come back in the order of the catalog, with another [WHERE] other lines
    come back, and a text that is no query is rejected. *)
Example server_catalog_query_reads_the_text :
  server_catalog_query demo_db catalog_sql [VStr "public"; VStr "t"] =
    Some [[VStr "id"]; [VStr "name"]] /\
  server_catalog_query demo_db
    "SELECT column_name FROM information_schema.columns WHERE table_schema = %s AND table_name = %s"
    [VStr "public"; VStr "t"] =
    Some [[VStr "name"]; [VStr "id"]] /\
  server_catalog_query demo_db
    "SELECT column_name FROM information_schema.columns WHERE table_name = %s AND table_schema = %s ORDER BY ordinal_position"
    [VStr "public"; VStr "t"] =
    Some [] /\
  server_catalog_query demo_db "" [VStr "public"; VStr "t"] = None /\
  server_catalog_query demo_db catalog_sql [VStr "public"] = None.
Proof. vm_compute. repeat split. Qed.

(** The lookup on the demonstration table, whose catalog lists [name]
    before [id]: the columns come back by ordinal position. *)
Example introspect_columns_demo :
  fst (introspect_columns no_faults "public" "t" (initial_world demo_db []))
  = Ok ["id"; "name"]%string.
Proof. reflexivity. Qed.

(** ** A table the source does not have *)

(** C6 as stated fails: for a table the source does not have, the column
    lookup returns the empty list without an error, and the program goes on
    to execute the data select. *)
Lemma introspect_columns_accepts_missing_table :
  find_table demo_db "public" "nope" = None /\
  fst (introspect_columns no_faults "public" "nope" (initial_world demo_db [])) = Ok [] /\
  map st_sql
      (executed (snd (migrate_table no_faults 4 full_conf full_conf "public" "nope"
                        "public" "t2" 2 (initial_world demo_db [])))) =
    [catalog_sql; select_sql "" "public" "nope"].
Proof. vm_compute. repeat split. Qed.

(** C6, amended. When the connections and the column lookup go through
    and the source has no table of the given name, the lookup itself
    succeeds with an empty column list; the program then executes the data
    select with an empty column list, the server rejects it, and the outer
    handler logs that error and ends the process through [sys.exit(1)]: no
    chunk is attempted, nothing is fetched or committed. *)
Theorem migrate_table_missing_table
        (F : faults) (fuel : nat) (source_conf target_conf : conf)
        (src_schema src_table tgt_schema tgt_table : string) (b : nat)
        (db : list table) (tgt : list row) :
  setup_fails F source_conf target_conf = false ->
  find_table db src_schema src_table = None ->
  let run := migrate_table F fuel source_conf target_conf src_schema src_table
                           tgt_schema tgt_table b (initial_world db tgt) in
  fst (introspect_columns F src_schema src_table (initial_world db tgt)) = Ok [] /\
  fst run = Raise (SystemExit 1) /\
  exit_status (fst run) = Some 1%Z /\
  executed (snd run) =
    [mkStmt SrcCur catalog_sql [VStr src_schema; VStr src_table];
     mkStmt SrcCur (select_sql "" src_schema src_table) []] /\
  log (snd run) =
    [LogStart src_schema src_table tgt_schema tgt_table b;
     LogFatal "UndefinedTable: relation does not exist"] /\
  fetch_calls (snd run) = 0 /\
  commit_calls (snd run) = 0 /\
  tgt_committed (snd run) = tgt.
Proof.
  intros Hsetup Hfind run. unfold setup_fails in Hsetup.
  repeat (apply orb_false_elim in Hsetup; destruct Hsetup as [Hsetup ?]).
  repeat match goal with
         | H : negb _ = false |- _ => apply negb_false_iff in H
         end.
  assert (Hcols : columns_of db src_schema src_table = []).
  { unfold columns_of. now rewrite (catalog_lookup_missing _ _ _ Hfind). }
  assert (Hrun : run =
    (Raise (SystemExit 1),
     mkWorld db [] tgt [] [SrcConn; TgtConn; SrcCur; TgtCur] []
       [mkStmt SrcCur catalog_sql [VStr src_schema; VStr src_table];
        mkStmt SrcCur (select_sql "" src_schema src_table) []] 0 0 0
       [LogStart src_schema src_table tgt_schema tgt_table b;
        LogFatal "UndefinedTable: relation does not exist"])).
  { unfold run, migrate_table, setup_logger, try_except.
    unfold bind at 1 2. unfold ret at 1. unfold logging at 1, modify at 1.
    unfold bind at 1.
    match goal with
    | Hsc : conf_complete source_conf = true, Hs : connect_fails F Source = false |- _ =>
        rewrite (@get_connection_run F Source _ _ Hsc), Hs
    end.
    unfold bind at 1.
    match goal with
    | Htc : conf_complete target_conf = true, Ht : connect_fails F Target = false |- _ =>
        rewrite (@get_connection_run F Target _ _ Htc), Ht
    end.
    unfold bind at 1 2, cursor, modify.
    unfold bind at 1. rewrite introspect_columns_run.
    match goal with
    | Hq : catalog_query_fails F = false |- _ => rewrite Hq
    end.
    cbv zeta.
    unfold bind at 1, src_cur_execute_select.
    cbn [src_db set_src_result set_executed set_opened set_log initial_world].
    rewrite Hfind, Hcols. reflexivity. }
  rewrite Hrun. cbn [fst snd executed log fetch_calls commit_calls tgt_committed].
  rewrite introspect_columns_run. cbv zeta.
  match goal with
  | Hq : catalog_query_fails F = false |- _ => rewrite Hq
  end.
  cbn [fst src_db initial_world]. rewrite Hcols.
  repeat split.
Qed.

(** C6, amended, at the demonstration source and the table [nope]. *)
Lemma migrate_table_missing_table_witness :
  let run := migrate_table no_faults 4 full_conf full_conf "public" "nope" "public" "t2" 2
                           (initial_world demo_db []) in
  fst (introspect_columns no_faults "public" "nope" (initial_world demo_db [])) = Ok [] /\
  fst run = Raise (SystemExit 1).
Proof.
  destruct (@migrate_table_missing_table no_faults 4 full_conf full_conf
              "public" "nope" "public" "t2" 2 demo_db [] eq_refl eq_refl)
    as (H1 & H2 & _).
  exact (conj H1 H2).
Defined.

(** ** The SQL text *)

(** Every statement of the loop is the one insert text with the row as its
    bound parameters. *)
Lemma transfer_loop_statements (F : faults) (ts tt cs ph : string) (b : nat) :
  forall (fuel : nat) (w : world) (total k : nat),
    exists rows,
      executed (snd (transfer_loop F fuel ts tt cs ph b total k w)) =
        executed w ++ map (mkStmt TgtCur (insert_sql_text ts tt cs ph)) rows.
Proof.
  induction fuel as [|fuel IH]; intros w total k.
  { exists []. simpl. now rewrite app_nil_r. }
  rewrite transfer_loop_unfold. cbv zeta.
  destruct (fetch_fails F (S (fetch_calls w))).
  { exists []. simpl. now rewrite app_nil_r. }
  destruct (firstn b (src_result w)) as [|r rs].
  { exists []. simpl. now rewrite app_nil_r. }
  match goal with
  | |- context [write_chunk F ?sql ?rows ?t ?n ?w0] =>
      assert (Hex : executed (snd (write_chunk F sql rows t n w0)) =
                    executed w ++ map (mkStmt TgtCur sql) (attempted F rows));
      [| destruct (write_chunk F sql rows t n w0) as [[t'|e|] w'] eqn:Hwc ]
  end.
  { rewrite write_chunk_run. cbv zeta.
    destruct w as [db res com pend op cl ex fc cc rc lg].
    destruct (existsb (insert_fails F) (r :: rs));
      [|destruct (commit_fails F _)];
      rewrite ?chunk_handler_run; cbv zeta;
      try destruct (rollback_fails F _); reflexivity. }
  - simpl in Hex. destruct (IH w' t' (k + 1)) as [rows Hrows].
    exists (attempted F (r :: rs) ++ rows).
    now rewrite Hrows, Hex, map_app, app_assoc.
  - simpl in Hex |- *. now exists (attempted F (r :: rs)).
  - simpl in Hex |- *. now exists (attempted F (r :: rs)).
Qed.

(** C8, where the code leaves it: a column name is put into the select and
    the insert as it is, without quotes, and a double quote inside a schema
    or table name is not escaped; the row values are bound parameters. *)
Theorem migrate_table_column_names_unquoted :
  (let run := migrate_table no_faults 2 full_conf full_conf "public" "t" "public" "t2" 2
                            (initial_world [spaced_table] []) in
   executed (snd run) =
     [mkStmt SrcCur catalog_sql [VStr "public"; VStr "t"];
      mkStmt SrcCur
        ("SELECT first name FROM " ++ dquote ++ "public" ++ dquote ++ "."
           ++ dquote ++ "t" ++ dquote)%string [];
      mkStmt TgtCur
        ("INSERT INTO " ++ dquote ++ "public" ++ dquote ++ "." ++ dquote ++ "t2"
           ++ dquote ++ " (first name) VALUES (%s)")%string [VStr "x"]]) /\
  select_sql "id" "public" ("a" ++ dquote ++ "b")%string =
    ("SELECT id FROM " ++ dquote ++ "public" ++ dquote ++ "."
       ++ dquote ++ "a" ++ dquote ++ "b" ++ dquote)%string.
Proof. vm_compute. split; reflexivity. Qed.

(** * Further properties of the code *)

(** ** get_connection *)

(** X1. A configuration that lacks one of the five keys makes
    [get_connection] raise [KeyError] for the first missing key, in the
    order host, port, database, user, password, before [psycopg2.connect]
    is called: the world is left as it was. *)
Theorem get_connection_key_error (F : faults) (e : endpoint) (c : conf) (w : world) :
  conf_complete c = false ->
  exists key before after,
    required_keys = before ++ key :: after /\
    (forall k, In k before -> conf_get c k <> None) /\
    conf_get c key = None /\
    get_connection F e c w = (Raise (Exception ("KeyError: " ++ key)%string), w).
Proof.
  unfold conf_complete, required_keys, forallb. intros H.
  unfold get_connection, subscript, bind.
  destruct (conf_get c "host") eqn:E1.
  2: { exists "host"%string, [], ["port"; "database"; "user"; "password"]%string.
       repeat split; auto;
         try (intros k Hk; simpl in Hk; intuition (subst; congruence)). }
  destruct (conf_get c "port") eqn:E2.
  2: { exists "port"%string, ["host"]%string, ["database"; "user"; "password"]%string.
       repeat split; auto;
         try (intros k Hk; simpl in Hk; intuition (subst; congruence)). }
  destruct (conf_get c "database") eqn:E3.
  2: { exists "database"%string, ["host"; "port"]%string, ["user"; "password"]%string.
       repeat split; auto;
         try (intros k Hk; simpl in Hk; intuition (subst; congruence)). }
  destruct (conf_get c "user") eqn:E4.
  2: { exists "user"%string, ["host"; "port"; "database"]%string, ["password"]%string.
       repeat split; auto;
         try (intros k Hk; simpl in Hk; intuition (subst; congruence)). }
  destruct (conf_get c "password") eqn:E5; [discriminate|].
  exists "password"%string, ["host"; "port"; "database"; "user"]%string, [].
  repeat split; auto;
    try (intros k Hk; simpl in Hk; intuition (subst; congruence)).
Qed.

(** X1 at a configuration without [port]. *)
Lemma get_connection_key_error_witness :
  exists key before after,
    required_keys = before ++ key :: after /\
    (forall k, In k before -> conf_get conf_without_port k <> None) /\
    conf_get conf_without_port key = None /\
    get_connection no_faults Source conf_without_port (initial_world demo_db []) =
      (Raise (Exception ("KeyError: " ++ key)%string), initial_world demo_db []).
Proof.
  exact (@get_connection_key_error no_faults Source conf_without_port
           (initial_world demo_db []) eq_refl).
Defined.

(** ** The inserts of one chunk *)

Section ChunkStatements.

Variable F : faults.

(** The rows of a chunk for which an insert is issued: all of them, or
    those up to and including the first rejected one. *)
Lemma attempted_first_rejected (rows : list row) :
  existsb (insert_fails F) rows = true ->
  exists before r after,
    rows = before ++ r :: after /\
    Forall (fun x => insert_fails F x = false) before /\
    insert_fails F r = true /\
    attempted F rows = before ++ [r] /\
    accepted F rows = before.
Proof.
  induction rows as [|x rows IH]; simpl; [discriminate|].
  destruct (insert_fails F x) eqn:Hx; simpl.
  - intros _. exists [], x, rows. repeat split; auto.
  - intros H. destruct (IH H) as (before & r & after & E & Hb & Hr & Ha & Hc).
    exists (x :: before), r, after. simpl. rewrite <- E, Ha, Hc.
    repeat split; auto.
Qed.

Lemma write_chunk_executed (sql : string) (rows : list row) (total k : nat) (w : world) :
  executed (snd (write_chunk F sql rows total k w)) =
    executed w ++ map (mkStmt TgtCur sql) (attempted F rows).
Proof.
  rewrite write_chunk_run. cbv zeta.
  destruct w as [db res com pend op cl ex fc cc rc lg].
  destruct (existsb (insert_fails F) rows);
    [|destruct (commit_fails F _)];
    rewrite ?chunk_handler_run; cbv zeta;
    try destruct (rollback_fails F _); reflexivity.
Qed.

End ChunkStatements.

(** X2. When a row of a chunk is rejected, the rows after it are never
    sent: the chunk executes one insert, with the row as its bound
    parameters, for each row up to and including the first rejected one,
    and no commit. *)
Theorem write_chunk_stops_at_first_rejected_row
        (F : faults) (sql : string) (rows : list row) (total k : nat) (w : world) :
  existsb (insert_fails F) rows = true ->
  exists before r after,
    rows = before ++ r :: after /\
    Forall (fun x => insert_fails F x = false) before /\
    insert_fails F r = true /\
    executed (snd (write_chunk F sql rows total k w)) =
      executed w ++ map (mkStmt TgtCur sql) (before ++ [r]) /\
    commit_calls (snd (write_chunk F sql rows total k w)) = commit_calls w.
Proof.
  intros Hany.
  destruct (@attempted_first_rejected F rows Hany)
    as (before & r & after & E & Hb & Hr & Ha & _).
  exists before, r, after. rewrite write_chunk_executed, Ha.
  repeat split; auto.
  rewrite write_chunk_run. cbv zeta. rewrite Hany, chunk_handler_run. cbv zeta.
  destruct w as [db res com pend op cl ex fc cc rc lg].
  destruct (rollback_fails F _); reflexivity.
Qed.

(** X2 at a chunk of three rows whose second row is rejected. *)
Lemma write_chunk_stops_at_first_rejected_row_witness :
  exists before r after,
    demo_rows = before ++ r :: after /\
    Forall (fun x => insert_fails rejects_two x = false) before /\
    insert_fails rejects_two r = true /\
    executed (snd (write_chunk rejects_two "INSERT" demo_rows 0 1
                     (initial_world demo_db []))) =
      [] ++ map (mkStmt TgtCur "INSERT") (before ++ [r]) /\
    commit_calls (snd (write_chunk rejects_two "INSERT" demo_rows 0 1
                         (initial_world demo_db []))) = 0.
Proof.
  exact (@write_chunk_stops_at_first_rejected_row rejects_two "INSERT" demo_rows 0 1
           (initial_world demo_db []) eq_refl).
Defined.

(** ** The three shapes of a run *)

Section RunShapes.

Variable F : faults.
Variables (fuel : nat) (source_conf target_conf : conf).
Variables (src_schema src_table tgt_schema tgt_table : string) (b : nat).
Variables (db : list table) (tgt : list row).

Lemma setup_ok_parts :
  setup_fails F source_conf target_conf = false ->
  conf_complete source_conf = true /\ conf_complete target_conf = true /\
  connect_fails F Source = false /\ connect_fails F Target = false /\
  catalog_query_fails F = false.
Proof.
  unfold setup_fails. intros H.
  repeat (apply orb_false_elim in H; destruct H as [H ?]).
  repeat match goal with
         | H : negb _ = false |- _ => apply negb_false_iff in H
         end.
  repeat split; assumption.
Qed.

(** The setup failed before or at the column lookup. *)
Lemma migrate_table_setup_failure_trace :
  setup_fails F source_conf target_conf = true ->
  exists op ex detail,
    migrate_table F fuel source_conf target_conf src_schema src_table
                  tgt_schema tgt_table b (initial_world db tgt) =
          (Raise (SystemExit 1),
           mkWorld db [] tgt [] op [] ex 0 0 0
                   [LogStart src_schema src_table tgt_schema tgt_table b;
                    LogFatal detail]) /\
    ((op = [] /\ ex = []) \/ (op = [SrcConn] /\ ex = []) \/
     (op = all_handles /\ ex = [mkStmt SrcCur catalog_sql [VStr src_schema; VStr src_table]])).
Proof.
  unfold setup_fails. intros Hfail.
  unfold migrate_table, setup_logger, try_except.
  unfold bind at 1 2. unfold ret at 1. unfold logging at 1, modify at 1.
  unfold bind at 1.
  destruct (conf_complete source_conf) eqn:Hsc.
  2: { match goal with
       | |- context [get_connection F Source source_conf ?w0] =>
           destruct (@get_connection_missing F Source source_conf w0 Hsc) as [key Hk]
       end.
       rewrite Hk. cbn. do 3 eexists. split; [reflexivity|]. now left. }
  rewrite (@get_connection_run F Source _ _ Hsc).
  destruct (connect_fails F Source) eqn:Hs.
  { cbn. do 3 eexists. split; [reflexivity|]. now left. }
  unfold bind at 1.
  destruct (conf_complete target_conf) eqn:Htc.
  2: { match goal with
       | |- context [get_connection F Target target_conf ?w0] =>
           destruct (@get_connection_missing F Target target_conf w0 Htc) as [key Hk]
       end.
       rewrite Hk. cbn. do 3 eexists. split; [reflexivity|]. right. now left. }
  rewrite (@get_connection_run F Target _ _ Htc).
  destruct (connect_fails F Target) eqn:Ht.
  { cbn. do 3 eexists. split; [reflexivity|]. right. now left. }
  simpl in Hfail.
  unfold bind at 1 2, cursor, modify.
  unfold bind at 1. rewrite introspect_columns_run, Hfail.
  cbn. do 3 eexists. split; [reflexivity|]. right. now right.
Qed.

(** The setup went through and the source has no such table. *)
Lemma missing_table_run_shape :
  setup_fails F source_conf target_conf = false ->
  find_table db src_schema src_table = None ->
  migrate_table F fuel source_conf target_conf src_schema src_table
                  tgt_schema tgt_table b (initial_world db tgt) =
        (Raise (SystemExit 1),
         mkWorld db [] tgt [] all_handles []
           [mkStmt SrcCur catalog_sql [VStr src_schema; VStr src_table]; mkStmt SrcCur (select_sql "" src_schema src_table) []] 0 0 0
           [LogStart src_schema src_table tgt_schema tgt_table b;
            LogFatal "UndefinedTable: relation does not exist"]).
Proof.
  intros Hsetup Hfind.
  destruct (setup_ok_parts Hsetup) as (Hsc & Htc & Hs & Ht & Hq).
  assert (Hcols : columns_of db src_schema src_table = []).
  { unfold columns_of. now rewrite (@catalog_lookup_missing _ _ _ Hfind). }
  unfold migrate_table, setup_logger, try_except.
  unfold bind at 1 2. unfold ret at 1. unfold logging at 1, modify at 1.
  unfold bind at 1. rewrite (@get_connection_run F Source _ _ Hsc), Hs.
  unfold bind at 1. rewrite (@get_connection_run F Target _ _ Htc), Ht.
  unfold bind at 1 2, cursor, modify.
  unfold bind at 1. rewrite introspect_columns_run, Hq. cbv zeta.
  unfold bind at 1, src_cur_execute_select.
  cbn [src_db set_src_result set_executed set_opened set_log initial_world].
  rewrite Hfind, Hcols. reflexivity.
Qed.

(** The setup went through and the loop ran over the table's rows. *)
Lemma migrate_table_loop_run (t : table) :
  setup_fails F source_conf target_conf = false ->
  find_table db src_schema src_table = Some t ->
  migrate_table F fuel source_conf target_conf src_schema src_table
                  tgt_schema tgt_table b (initial_world db tgt) =
    finish src_schema src_table tgt_schema tgt_table
      (transfer_loop F fuel tgt_schema tgt_table
         (join ", " (columns_of db src_schema src_table))
         (join ", " (repeat "%s"%string (length (columns_of db src_schema src_table))))
         b 0 0
         (world_at_loop (initial_world db tgt) src_schema src_table tgt_schema
                        tgt_table b (tbl_rows t))).
Proof.
  intros Hsetup Hfind.
  destruct (setup_ok_parts Hsetup) as (Hsc & Htc & Hs & Ht & Hq).
  now rewrite (@migrate_table_run F) with (t := t).
Qed.

End RunShapes.

(** ** What every run does and never does *)

Section EveryLoop.

Variable F : faults.
Variables (ts tt cs ph : string) (b : nat).

Lemma attempted_incl (rows : list row) : incl (attempted F rows) rows.
Proof.
  induction rows as [|r rows IH]; simpl; [apply incl_refl|].
  destruct (insert_fails F r).
  - intros x [<-|[]]. now left.
  - intros x [<-|Hx]; [now left | right; now apply IH].
Qed.

(** The loop raises nothing but what [except Exception] catches. *)
Lemma transfer_loop_no_exit :
  forall (fuel : nat) (w : world) (total k : nat) (code : Z),
    fst (transfer_loop F fuel ts tt cs ph b total k w) <> Raise (SystemExit code).
Proof.
  induction fuel as [|fuel IH]; intros w total k code; [discriminate|].
  rewrite transfer_loop_unfold. cbv zeta.
  destruct (fetch_fails F (S (fetch_calls w))); [discriminate|].
  destruct (firstn b (src_result w)) as [|r rs]; [discriminate|].
  match goal with
  | |- context [write_chunk F ?sql ?rows ?t ?n ?w0] =>
      pose proof (@write_chunk_run F sql rows t n w0) as Hrun;
      destruct (write_chunk F sql rows t n w0) as [[t'|[msg|c]|] w'] eqn:Hwc
  end; try discriminate; try apply IH.
  exfalso. cbv zeta in Hrun.
  destruct (existsb (insert_fails F) (r :: rs));
    [|destruct (commit_fails F _)];
    rewrite ?chunk_handler_run in Hrun; cbv zeta in Hrun;
    try destruct (rollback_fails F _); discriminate.
Qed.

(** The loop only appends rows it fetched to the target, and leaves the
    source database alone. *)
Lemma transfer_loop_appends :
  forall (fuel : nat) (w : world) (total k : nat),
    tgt_pending w = [] ->
    exists added,
      tgt_committed (snd (transfer_loop F fuel ts tt cs ph b total k w)) =
        tgt_committed w ++ added /\
      incl added (src_result w) /\
      src_db (snd (transfer_loop F fuel ts tt cs ph b total k w)) = src_db w.
Proof.
  induction fuel as [|fuel IH]; intros w total k Hpend.
  { exists []. simpl. rewrite app_nil_r. repeat split. apply incl_nil_l. }
  rewrite transfer_loop_unfold. cbv zeta.
  destruct (fetch_fails F (S (fetch_calls w))).
  { exists []. simpl. rewrite app_nil_r. repeat split. apply incl_nil_l. }
  destruct (firstn b (src_result w)) as [|r rs] eqn:Hrows.
  { exists []. simpl. rewrite app_nil_r. repeat split. apply incl_nil_l. }
  assert (Hfirst : incl (r :: rs) (src_result w)).
  { rewrite <- Hrows. intros x Hx.
    rewrite <- (firstn_skipn b (src_result w)). apply in_or_app. now left. }
  assert (Hskip : incl (skipn b (src_result w)) (src_result w)).
  { intros x Hx.
    rewrite <- (firstn_skipn b (src_result w)). apply in_or_app. now right. }
  match goal with
  | |- context [write_chunk F ?sql ?rows ?t ?n ?w0] =>
      pose proof (write_chunk_frame F sql rows t n w0) as Hframe;
      pose proof (@write_chunk_end F sql rows t n w0 Hpend) as Hend;
      destruct (write_chunk F sql rows t n w0) as [res w1] eqn:Hwc
  end.
  simpl in Hframe, Hend.
  destruct Hframe as (Hdb & Hres & _). simpl in Hdb, Hres.
  inversion Hend as [w0 _ _ Hcom Hpe _ _ _ | w0 _ _ Hcom Hpe _ _ _
                    | w0 _ _ Hcom _ _]; subst; simpl in Hcom.
  - destruct (IH w1 (total + length (r :: rs)) (k + 1) Hpe) as (added & Hc & Hin & Hd).
    exists ((r :: rs) ++ added). rewrite Hc, Hcom, Hd, Hdb, <- app_assoc.
    repeat split. apply incl_app; [exact Hfirst|].
    rewrite Hres in Hin. eapply incl_tran; eassumption.
  - destruct (IH w1 total (k + 1) Hpe) as (added & Hc & Hin & Hd).
    exists added. rewrite Hc, Hcom, Hd, Hdb.
    repeat split. rewrite Hres in Hin. eapply incl_tran; eassumption.
  - exists []. simpl. rewrite app_nil_r, Hcom, Hdb. repeat split. apply incl_nil_l.
Qed.

(** Every statement of the loop is the insert text with a fetched row as
    its bound parameters. *)
Lemma transfer_loop_inserts :
  forall (fuel : nat) (w : world) (total k : nat),
    exists rows,
      executed (snd (transfer_loop F fuel ts tt cs ph b total k w)) =
        executed w ++ map (mkStmt TgtCur (insert_sql_text ts tt cs ph)) rows /\
      incl rows (src_result w).
Proof.
  induction fuel as [|fuel IH]; intros w total k.
  { exists []. simpl. rewrite app_nil_r. split; [reflexivity | apply incl_nil_l]. }
  rewrite transfer_loop_unfold. cbv zeta.
  destruct (fetch_fails F (S (fetch_calls w))).
  { exists []. simpl. rewrite app_nil_r. split; [reflexivity | apply incl_nil_l]. }
  destruct (firstn b (src_result w)) as [|r rs] eqn:Hrows.
  { exists []. simpl. rewrite app_nil_r. split; [reflexivity | apply incl_nil_l]. }
  assert (Hfirst : incl (attempted F (r :: rs)) (src_result w)).
  { eapply incl_tran; [apply attempted_incl|].
    rewrite <- Hrows. intros x Hx.
    rewrite <- (firstn_skipn b (src_result w)). apply in_or_app. now left. }
  assert (Hskip : incl (skipn b (src_result w)) (src_result w)).
  { intros x Hx.
    rewrite <- (firstn_skipn b (src_result w)). apply in_or_app. now right. }
  match goal with
  | |- context [write_chunk F ?sql ?rows ?t ?n ?w0] =>
      pose proof (write_chunk_executed F sql rows t n w0) as Hex;
      pose proof (write_chunk_frame F sql rows t n w0) as Hframe;
      destruct (write_chunk F sql rows t n w0) as [[t'|e|] w'] eqn:Hwc
  end; simpl in Hex, Hframe; destruct Hframe as (_ & Hres & _); simpl in Hres.
  - destruct (IH w' t' (k + 1)) as (rows & Hrows' & Hin).
    exists (attempted F (r :: rs) ++ rows). split.
    + now rewrite Hrows', Hex, map_app, app_assoc.
    + apply incl_app; [exact Hfirst|]. rewrite Hres in Hin.
      eapply incl_tran; eassumption.
  - exists (attempted F (r :: rs)). now split.
  - exists (attempted F (r :: rs)). now split.
Qed.

End EveryLoop.

Lemma migrate_table_outcomes
      (F : faults) (fuel : nat) (source_conf target_conf : conf)
      (src_schema src_table tgt_schema tgt_table : string) (b : nat)
      (db : list table) (tgt : list row) :
  (forall t, find_table db src_schema src_table = Some t -> length (tbl_rows t) < fuel) ->
  let run := migrate_table F fuel source_conf target_conf src_schema src_table
                           tgt_schema tgt_table b (initial_world db tgt) in
  (fst run = Ok tt /\ exit_status (fst run) = Some 0%Z /\
   exists total,
     last (log (snd run)) (LogFatal "") =
       LogTotal total src_schema src_table tgt_schema tgt_table) \/
  (fst run = Raise (SystemExit 1) /\ exit_status (fst run) = Some 1%Z /\
   exists detail, last (log (snd run)) (LogFatal "") = LogFatal detail).
Proof.
  intros Hfuel run. subst run.
  destruct (setup_fails F source_conf target_conf) eqn:Hsetup.
  { destruct (@migrate_table_setup_failure_trace F fuel source_conf target_conf
                src_schema src_table tgt_schema tgt_table b db tgt Hsetup)
      as (op & ex & detail & Hrun & _).
    rewrite Hrun. right. cbn. repeat split. now exists detail. }
  destruct (find_table db src_schema src_table) as [t|] eqn:Hfind.
  2: { rewrite (@missing_table_run_shape F fuel source_conf target_conf
                  src_schema src_table tgt_schema tgt_table b db tgt Hsetup Hfind).
       right. cbn. repeat split. now eexists. }
  rewrite (@migrate_table_loop_run F fuel source_conf target_conf
             src_schema src_table tgt_schema tgt_table b db tgt t Hsetup Hfind).
  match goal with
  | |- context [transfer_loop F fuel ?ts ?tt ?cs ?ph b 0 0 ?w0] =>
      destruct (@transfer_loop_fuel F ts tt cs ph b fuel w0 0 0 (Hfuel t eq_refl))
        as [Hnf _];
      pose proof (@transfer_loop_no_exit F ts tt cs ph b fuel w0 0 0) as Hne;
      destruct (transfer_loop F fuel ts tt cs ph b 0 0 w0) as [[total|[msg|code]|] w']
  end; cbn [fst] in Hnf, Hne.
  - left. cbn [finish fst snd exit_status log set_closed set_log].
    repeat split. exists total. apply last_last.
  - right. cbn [finish fst snd exit_status log set_closed set_log].
    repeat split. exists msg. apply last_last.
  - exfalso. now apply (Hne code).
  - exfalso. now apply Hnf.
Qed.

(** X3. The only exception that escapes [migrate_table] is the one
    [setup_logger] raises, before the [try], when the log file cannot be
    opened: then nothing is opened, logged or executed.  Once the log file
    is open, with fuel above the number of rows of the source table, a run
    either returns normally, its last log line being the closing total, or
    ends through [sys.exit(1)], its last log line being the fatal error. *)
Theorem migrate_table_returns_or_exits_one
        (logger_fails : bool) (F : faults) (fuel : nat) (source_conf target_conf : conf)
        (src_schema src_table tgt_schema tgt_table : string) (b : nat)
        (db : list table) (tgt : list row) :
  (forall t, find_table db src_schema src_table = Some t -> length (tbl_rows t) < fuel) ->
  let run := migrate_table_logging logger_fails F fuel source_conf target_conf
               src_schema src_table tgt_schema tgt_table b (initial_world db tgt) in
  (logger_fails = true /\
   run = (Raise (Exception "OSError: cannot open the log file"), initial_world db tgt)) \/
  (logger_fails = false /\
   fst run = Ok tt /\ exit_status (fst run) = Some 0%Z /\
   exists total,
     last (log (snd run)) (LogFatal "") =
       LogTotal total src_schema src_table tgt_schema tgt_table) \/
  (logger_fails = false /\
   fst run = Raise (SystemExit 1) /\ exit_status (fst run) = Some 1%Z /\
   exists detail, last (log (snd run)) (LogFatal "") = LogFatal detail).
Proof.
  intros Hfuel run. subst run.
  unfold migrate_table_logging, setup_logger_or_raise.
  destruct logger_fails.
  - left. split; reflexivity.
  - right.
    change (bind setup_logger
              (fun _ => migrate_table F fuel source_conf target_conf src_schema src_table
                          tgt_schema tgt_table b) (initial_world db tgt))
      with (migrate_table F fuel source_conf target_conf src_schema src_table
              tgt_schema tgt_table b (initial_world db tgt)).
    destruct (@migrate_table_outcomes F fuel source_conf target_conf src_schema src_table
                tgt_schema tgt_table b db tgt Hfuel) as [H|H]; [left | right];
      (split; [reflexivity | exact H]).
Qed.

(** X3 at the demonstration table, with the second [fetchmany] raising. *)
Lemma migrate_table_returns_or_exits_one_witness :
  let run := migrate_table_logging false read_breaks 4 full_conf full_conf
               "public" "t" "public" "t2" 2 (initial_world demo_db []) in
  (false = true /\
   run = (Raise (Exception "OSError: cannot open the log file"),
          initial_world demo_db [])) \/
  (false = false /\
   fst run = Ok tt /\ exit_status (fst run) = Some 0%Z /\
   exists total,
     last (log (snd run)) (LogFatal "") = LogTotal total "public" "t" "public" "t2") \/
  (false = false /\
   fst run = Raise (SystemExit 1) /\ exit_status (fst run) = Some 1%Z /\
   exists detail, last (log (snd run)) (LogFatal "") = LogFatal detail).
Proof.
  apply (@migrate_table_returns_or_exits_one false read_breaks 4 full_conf full_conf
           "public" "t" "public" "t2" 2 demo_db []).
  intros t Ht. vm_compute in Ht. injection Ht as <-. vm_compute. apply le_n.
Defined.

(** X4. Whatever fails, the handles are opened in the order source
    connection, target connection, source cursor, target cursor, and the
    four of them are closed, in the order source cursor, source connection,
    target cursor, target connection, exactly when the call returns
    normally; no handle is closed that was not opened. *)
Theorem migrate_table_handle_discipline
        (F : faults) (fuel : nat) (source_conf target_conf : conf)
        (src_schema src_table tgt_schema tgt_table : string) (b : nat)
        (db : list table) (tgt : list row) :
  let run := migrate_table F fuel source_conf target_conf src_schema src_table
                           tgt_schema tgt_table b (initial_world db tgt) in
  (exists n, opened (snd run) = firstn n all_handles) /\
  closed (snd run) =
    match fst run with
    | Ok _ => [SrcCur; SrcConn; TgtCur; TgtConn]
    | _ => []
    end /\
  incl (closed (snd run)) (opened (snd run)).
Proof.
  intros run. subst run.
  destruct (setup_fails F source_conf target_conf) eqn:Hsetup.
  { destruct (@migrate_table_setup_failure_trace F fuel source_conf target_conf
                src_schema src_table tgt_schema tgt_table b db tgt Hsetup)
      as (op & ex & detail & Hrun & [[-> _]|[[-> _]|[-> _]]]);
      rewrite Hrun; cbn [fst snd opened closed]; repeat split;
      try apply incl_nil_l;
      [now exists 0 | now exists 1 | now exists 4]. }
  destruct (find_table db src_schema src_table) as [t|] eqn:Hfind.
  2: { rewrite (@missing_table_run_shape F fuel source_conf target_conf
                  src_schema src_table tgt_schema tgt_table b db tgt Hsetup Hfind).
       cbn [fst snd opened closed]. repeat split; [now exists 4 | apply incl_nil_l]. }
  destruct (@migrate_table_closes_on_return_only F fuel source_conf target_conf
              src_schema src_table tgt_schema tgt_table b db tgt t Hsetup Hfind)
    as [Hop Hcl].
  cbv zeta in Hop, Hcl. rewrite Hop, Hcl. repeat split; [now exists 4|].
  destruct (fst (migrate_table _ _ _ _ _ _ _ _ _ _)) as [u|e|];
    try apply incl_nil_l.
  intros h Hh. simpl in Hh |- *. tauto.
Qed.

(** X5. Whatever fails, the run executes nothing but the column lookup and
    the data select on the source cursor, each at most as the code builds
    it, and on the target cursor the one insert text with a row of the
    source table as its bound parameters: no statement changes the source
    and no statement but an insert reaches the target. *)
Theorem migrate_table_statement_kinds
        (F : faults) (fuel : nat) (source_conf target_conf : conf)
        (src_schema src_table tgt_schema tgt_table : string) (b : nat)
        (db : list table) (tgt : list row) :
  let run := migrate_table F fuel source_conf target_conf src_schema src_table
                           tgt_schema tgt_table b (initial_world db tgt) in
  let columns := columns_of db src_schema src_table in
  Forall (fun s =>
            s = mkStmt SrcCur catalog_sql [VStr src_schema; VStr src_table] \/
            s = mkStmt SrcCur (select_sql (join ", " columns) src_schema src_table) [] \/
            (st_cursor s = TgtCur /\
             st_sql s = insert_sql_text tgt_schema tgt_table (join ", " columns)
                          (join ", " (repeat "%s"%string (length columns))) /\
             exists t, find_table db src_schema src_table = Some t /\
                       In (st_params s) (tbl_rows t)))
         (executed (snd run)).
Proof.
  intros run columns. subst run columns.
  destruct (setup_fails F source_conf target_conf) eqn:Hsetup.
  { destruct (@migrate_table_setup_failure_trace F fuel source_conf target_conf
                src_schema src_table tgt_schema tgt_table b db tgt Hsetup)
      as (op & ex & detail & Hrun & [[_ ->]|[[_ ->]|[_ ->]]]);
      rewrite Hrun; cbn [snd executed]; repeat constructor. }
  destruct (find_table db src_schema src_table) as [t|] eqn:Hfind.
  2: { rewrite (@missing_table_run_shape F fuel source_conf target_conf
                  src_schema src_table tgt_schema tgt_table b db tgt Hsetup Hfind).
       cbn [snd executed].
       assert (Hcols : columns_of db src_schema src_table = []).
       { unfold columns_of. now rewrite (@catalog_lookup_missing _ _ _ Hfind). }
       rewrite Hcols.
       constructor; [now left|]. constructor; [right; now left | constructor]. }
  rewrite (@migrate_table_loop_run F fuel source_conf target_conf
             src_schema src_table tgt_schema tgt_table b db tgt t Hsetup Hfind).
  match goal with
  | |- context [transfer_loop F fuel ?ts ?tt ?cs ?ph b 0 0 ?w0] =>
      destruct (@transfer_loop_inserts F ts tt cs ph b fuel w0 0 0) as (rows & Hex & Hin);
      destruct (transfer_loop F fuel ts tt cs ph b 0 0 w0)
        as [[total|[msg|code]|] [db' res' com' pend' op' cl' ex' fc' cc' rc' lg']]
  end;
    cbn [snd executed world_at_loop initial_world src_result app] in Hex, Hin;
    cbn [finish snd executed set_closed set_log]; subst ex';
    (constructor; [now left|]; constructor; [right; now left|]);
    apply Forall_forall; intros s Hs; apply in_map_iff in Hs;
    destruct Hs as (r & <- & Hr); right; right; cbn [st_cursor st_sql st_params];
    exact (conj eq_refl (conj eq_refl (ex_intro _ t (conj eq_refl (Hin _ Hr))))).
Qed.

(** X6. Whatever fails, the run only appends to the target: the rows the
    target held stay in place, and every row added is a row of the source
    table. *)
Theorem migrate_table_appends_only
        (F : faults) (fuel : nat) (source_conf target_conf : conf)
        (src_schema src_table tgt_schema tgt_table : string) (b : nat)
        (db : list table) (tgt : list row) :
  let run := migrate_table F fuel source_conf target_conf src_schema src_table
                           tgt_schema tgt_table b (initial_world db tgt) in
  exists added,
    tgt_committed (snd run) = tgt ++ added /\
    forall r, In r added ->
      exists t, find_table db src_schema src_table = Some t /\ In r (tbl_rows t).
Proof.
  intros run. subst run.
  destruct (setup_fails F source_conf target_conf) eqn:Hsetup.
  { destruct (@migrate_table_setup_failure_trace F fuel source_conf target_conf
                src_schema src_table tgt_schema tgt_table b db tgt Hsetup)
      as (op & ex & detail & Hrun & _).
    rewrite Hrun. cbn [snd tgt_committed].
    exists []. rewrite app_nil_r. split; [reflexivity | intros r []]. }
  destruct (find_table db src_schema src_table) as [t|] eqn:Hfind.
  2: { rewrite (@missing_table_run_shape F fuel source_conf target_conf
                  src_schema src_table tgt_schema tgt_table b db tgt Hsetup Hfind).
       cbn [snd tgt_committed].
       exists []. rewrite app_nil_r. split; [reflexivity | intros r []]. }
  rewrite (@migrate_table_loop_run F fuel source_conf target_conf
             src_schema src_table tgt_schema tgt_table b db tgt t Hsetup Hfind).
  match goal with
  | |- context [transfer_loop F fuel ?ts ?tt ?cs ?ph b 0 0 ?w0] =>
      destruct (@transfer_loop_appends F ts tt cs ph b fuel w0 0 0 eq_refl)
        as (added & Hcom & Hin & _);
      destruct (transfer_loop F fuel ts tt cs ph b 0 0 w0)
        as [[total|[msg|code]|] [db' res' com' pend' op' cl' ex' fc' cc' rc' lg']]
  end;
    cbn [snd tgt_committed world_at_loop initial_world src_result] in Hcom, Hin;
    cbn [finish snd tgt_committed set_closed set_log]; subst;
    exists added; (split; [reflexivity|]);
    intros r Hr; exact (ex_intro _ t (conj eq_refl (Hin _ Hr))).
Qed.

(** ** The trace and the log of a run whose reads, commits and rollbacks
    go through *)

Lemma announced_numbers_app (l l' : list log_event) :
  announced_numbers (l ++ l') = announced_numbers l ++ announced_numbers l'.
Proof.
  induction l as [|e l IH]; simpl; [reflexivity|].
  destruct e; simpl; now rewrite ?IH.
Qed.

Lemma committed_totals_app (l l' : list log_event) :
  committed_totals (l ++ l') = committed_totals l ++ committed_totals l'.
Proof.
  induction l as [|e l IH]; simpl; [reflexivity|].
  destruct e; simpl; now rewrite ?IH.
Qed.

Section ReliableTrace.

Variable F : faults.
Hypothesis fetch_ok : forall n, fetch_fails F n = false.
Hypothesis commit_ok : forall n, commit_fails F n = false.
Hypothesis rollback_ok : forall n, rollback_fails F n = false.

(** One chunk, when its commit or its rollback goes through. *)
Lemma write_chunk_reliable (sql : string) (rows : list row) (total k : nat) (w : world) :
  exists w1,
    write_chunk F sql rows total k w =
      (Ok (if chunk_ok F rows then total + length rows else total), w1) /\
    log w1 =
      log w ++ [if chunk_ok F rows
                then LogChunkCommitted k (total + length rows)
                else LogChunkError k "IntegrityError: insert rejected"] /\
    executed w1 = executed w ++ map (mkStmt TgtCur sql) (attempted F rows) /\
    src_result w1 = src_result w.
Proof.
  pose proof (write_chunk_executed F sql rows total k w) as Hex.
  rewrite write_chunk_run in Hex |- *. cbv zeta in Hex |- *.
  unfold chunk_ok.
  destruct w as [db res com pend op cl ex fc cc rc lg].
  destruct (existsb (insert_fails F) rows) eqn:Hany; cbn [negb].
  - rewrite chunk_handler_run in Hex |- *. cbv zeta in Hex |- *.
    rewrite rollback_ok in Hex |- *.
    eexists. split; [reflexivity|]. cbn in Hex |- *. now repeat split.
  - cbn [commit_calls set_tgt_pending set_executed] in Hex |- *.
    rewrite commit_ok in Hex |- *.
    eexists. split; [reflexivity|]. cbn in Hex |- *. now repeat split.
Qed.

Lemma transfer_loop_reliable_log (ts tt cs ph : string) (b : nat) :
  0 < b ->
  forall (fuel : nat) (w : world) (total k : nat),
    length (src_result w) < fuel ->
    let w' := snd (transfer_loop F fuel ts tt cs ph b total k w) in
    executed w' =
      executed w ++
      map (mkStmt TgtCur (insert_sql_text ts tt cs ph))
          (flat_map (attempted F) (chunks b (src_result w))) /\
    announced_numbers (log w') =
      announced_numbers (log w) ++ seq (S k) (length (chunks b (src_result w))) /\
    committed_totals (log w') =
      committed_totals (log w) ++
      running_sums total (map (@length row) (filter (chunk_ok F) (chunks b (src_result w)))).
Proof.
  intros Hb.
  induction fuel as [|fuel IH]; intros w total k Hfuel; [lia|].
  cbv zeta. rewrite transfer_loop_unfold. cbv zeta. rewrite fetch_ok.
  destruct (firstn b (src_result w)) as [|r rs] eqn:Hrows.
  { apply (firstn_nil_inv _ Hb) in Hrows. rewrite Hrows, chunks_nil. cbn.
    now rewrite !app_nil_r. }
  assert (Hne : src_result w <> [])
    by (intros E; rewrite E, firstn_nil in Hrows; discriminate).
  pose proof (firstn_cons_skipn_shorter _ _ Hrows) as Hshort.
  rewrite (chunks_step Hb Hne), Hrows.
  match goal with
  | |- context [write_chunk F ?sql ?rows ?t ?n ?w0] =>
      destruct (write_chunk_reliable sql rows t n w0) as (w1 & Hwc & Hlog & Hex & Hres)
  end.
  rewrite Hwc.
  cbn [log executed src_result set_log set_src_result set_fetch_calls] in Hlog, Hex, Hres.
  specialize (IH w1 (if chunk_ok F (r :: rs) then total + length (r :: rs) else total)
                 (k + 1)).
  cbv zeta in IH. rewrite Hres in IH.
  destruct IH as (H1 & H2 & H3); [lia|].
  rewrite H1, H2, H3, Hex, Hlog.
  rewrite !announced_numbers_app, !committed_totals_app.
  cbn [flat_map filter length seq map]. rewrite map_app, <- !app_assoc.
  replace (k + 1) with (S k) by lia.
  destruct (chunk_ok F (r :: rs)); cbn; repeat split; now rewrite ?app_nil_r.
Qed.

End ReliableTrace.

Lemma flat_map_attempted_all (F : faults) (cs : list (list row)) :
  (forall r, insert_fails F r = false) -> flat_map (attempted F) cs = concat cs.
Proof.
  intros Hno. induction cs as [|c cs IH]; simpl; [reflexivity|].
  rewrite IH. f_equal. apply attempted_all.
  induction c as [|r c IHc]; simpl; [reflexivity|]. now rewrite Hno.
Qed.

(** X7. In a run in which nothing fails, the statements executed are, in
    order: the column lookup with the schema and table names as bound
    parameters, the data select, and one insert per source row in the order
    of the cursor, all with the same text and each with its row as bound
    parameters. *)
Theorem fault_free_run_statement_trace
        (fuel : nat) (source_conf target_conf : conf)
        (src_schema src_table tgt_schema tgt_table : string) (b : nat)
        (db : list table) (tgt : list row) (t : table) :
  1 <= b ->
  conf_complete source_conf = true ->
  conf_complete target_conf = true ->
  find_table db src_schema src_table = Some t ->
  length (tbl_rows t) < fuel ->
  let run := migrate_table no_faults fuel source_conf target_conf src_schema src_table
                           tgt_schema tgt_table b (initial_world db tgt) in
  let columns := columns_of db src_schema src_table in
  executed (snd run) =
    [mkStmt SrcCur catalog_sql [VStr src_schema; VStr src_table];
     mkStmt SrcCur (select_sql (join ", " columns) src_schema src_table) []] ++
    map (mkStmt TgtCur
           (insert_sql_text tgt_schema tgt_table (join ", " columns)
              (join ", " (repeat "%s"%string (length columns)))))
        (tbl_rows t).
Proof.
  intros Hb Hsc Htc Hfind Hfuel run columns. subst run columns.
  rewrite (@migrate_table_run no_faults) with (t := t) by (assumption || reflexivity).
  match goal with
  | |- context [transfer_loop _ fuel ?ts ?tt ?cs ?ph b 0 0 ?w0] =>
      destruct (@transfer_loop_reliable_log no_faults (fun _ => eq_refl)
                  (fun _ => eq_refl) (fun _ => eq_refl) ts tt cs ph b Hb fuel w0 0 0
                  Hfuel) as (Hex & _);
      destruct (@transfer_loop_run no_faults (fun _ => eq_refl) (fun _ => eq_refl)
                  (fun _ => eq_refl) ts tt cs ph b Hb fuel w0 0 0 Hfuel eq_refl)
        as (w' & Hloop & _)
  end.
  rewrite Hloop in Hex |- *.
  cbn [snd executed world_at_loop initial_world src_result src_db app] in Hex.
  cbn [finish snd executed set_closed set_log].
  rewrite Hex, (@flat_map_attempted_all no_faults _ (fun _ => eq_refl)).
  now rewrite (concat_chunks _ Hb).
Qed.

(** X7 at the demonstration table. *)
Lemma fault_free_run_statement_trace_witness :
  executed (snd (migrate_table no_faults 4 full_conf full_conf "public" "t" "public"
                   "t2" 2 (initial_world demo_db []))) =
    [mkStmt SrcCur catalog_sql [VStr "public"; VStr "t"];
     mkStmt SrcCur (select_sql (join ", " (columns_of demo_db "public" "t"))
                      "public" "t") []] ++
    map (mkStmt TgtCur
           (insert_sql_text "public" "t2" (join ", " (columns_of demo_db "public" "t"))
              (join ", " (repeat "%s"%string
                            (length (columns_of demo_db "public" "t"))))))
        demo_rows.
Proof.
  exact (@fault_free_run_statement_trace 4 full_conf full_conf "public" "t" "public" "t2"
           2 demo_db [] demo_table (le_S 1 1 (le_n 1)) eq_refl eq_refl eq_refl (le_n 4)).
Defined.

(** X8. When the setup goes through and reads, commits and rollbacks do not
    fail, the chunks are announced with the numbers 1, 2, ..., N, the total
    logged after each committed chunk is the sum of the sizes of the chunks
    committed so far, and [fetchmany] is called N + 1 times: once per chunk
    and once for the empty batch that ends the loop. *)
Theorem migrate_table_log_numbering
        (F : faults) (fuel : nat) (source_conf target_conf : conf)
        (src_schema src_table tgt_schema tgt_table : string) (b : nat)
        (db : list table) (tgt : list row) (t : table) :
  1 <= b ->
  setup_fails F source_conf target_conf = false ->
  (forall n, fetch_fails F n = false) ->
  (forall n, commit_fails F n = false) ->
  (forall n, rollback_fails F n = false) ->
  find_table db src_schema src_table = Some t ->
  length (tbl_rows t) < fuel ->
  let batches := chunks b (tbl_rows t) in
  let run := migrate_table F fuel source_conf target_conf src_schema src_table
                           tgt_schema tgt_table b (initial_world db tgt) in
  announced_numbers (log (snd run)) = seq 1 (length batches) /\
  committed_totals (log (snd run)) =
    running_sums 0 (map (@length row) (filter (chunk_ok F) batches)) /\
  length batches = ceil_div (length (tbl_rows t)) b /\
  fetch_calls (snd run) = S (length batches).
Proof.
  intros Hb Hsetup Hfetch Hcommit Hroll Hfind Hfuel batches run. subst run.
  rewrite (@migrate_table_loop_run F fuel source_conf target_conf
             src_schema src_table tgt_schema tgt_table b db tgt t Hsetup Hfind).
  match goal with
  | |- context [transfer_loop _ fuel ?ts ?tt ?cs ?ph b 0 0 ?w0] =>
      destruct (@transfer_loop_reliable_log F Hfetch Hcommit Hroll ts tt cs ph b Hb
                  fuel w0 0 0 Hfuel) as (_ & Hnum & Htot);
      destruct (@transfer_loop_run F Hfetch Hcommit Hroll ts tt cs ph b Hb fuel w0 0 0
                  Hfuel eq_refl)
        as (w' & Hloop & _ & _ & _ & _ & _ & _ & Hfc & _)
  end.
  rewrite Hloop in Hnum, Htot |- *.
  cbn [snd log fetch_calls world_at_loop initial_world src_result app] in Hnum, Htot, Hfc.
  cbn [finish snd log fetch_calls set_closed set_log].
  rewrite announced_numbers_app, committed_totals_app, Hnum, Htot, Hfc.
  cbn. rewrite !app_nil_r. fold batches.
  repeat split. unfold batches. now apply length_chunks.
Qed.

(** X8 at three rows in chunks of two with [(2,'b')] rejected. *)
Lemma migrate_table_log_numbering_witness :
  let run := migrate_table rejects_two 4 full_conf full_conf "public" "t" "public" "t2" 2
                           (initial_world demo_db []) in
  announced_numbers (log (snd run)) = seq 1 (length (chunks 2 demo_rows)) /\
  fetch_calls (snd run) = S (length (chunks 2 demo_rows)).
Proof.
  destruct (@migrate_table_log_numbering rejects_two 4 full_conf full_conf
              "public" "t" "public" "t2" 2 demo_db [] demo_table
              (le_S 1 1 (le_n 1)) eq_refl (fun _ => eq_refl) (fun _ => eq_refl)
              (fun _ => eq_refl) eq_refl (le_n 4))
    as (H1 & _ & _ & H2).
  exact (conj H1 H2).
Defined.

(** ** A read that fails in mid-stream *)

Section ReadFailure.

Variable F : faults.
Hypothesis commit_ok : forall n, commit_fails F n = false.
Hypothesis rollback_ok : forall n, rollback_fails F n = false.

Lemma transfer_loop_read_failure (ts tt cs ph : string) (b : nat) :
  0 < b ->
  forall (j fuel : nat) (w : world) (total k : nat),
    j < fuel ->
    j <= length (chunks b (src_result w)) ->
    (forall n, 1 <= n <= j -> fetch_fails F (fetch_calls w + n) = false) ->
    fetch_fails F (fetch_calls w + S j) = true ->
    tgt_pending w = [] ->
    exists w',
      transfer_loop F fuel ts tt cs ph b total k w =
        (Raise (Exception "DatabaseError: fetch failed"), w') /\
      tgt_committed w' =
        tgt_committed w ++
        concat (filter (chunk_ok F) (firstn j (chunks b (src_result w)))) /\
      chunk_sizes (log w') =
        chunk_sizes (log w) ++ map (@length row) (firstn j (chunks b (src_result w))) /\
      reported_totals (log w') = reported_totals (log w) /\
      fetch_calls w' = fetch_calls w + S j.
Proof.
  intros Hb.
  induction j as [|j IH]; intros fuel w total k Hfuel Hj Hok Hbad Hpend;
    (destruct fuel as [|fuel]; [lia|]);
    rewrite transfer_loop_unfold; cbv zeta.
  - replace (fetch_calls w + 1) with (S (fetch_calls w)) in Hbad by lia.
    rewrite Hbad. eexists. split; [reflexivity|]. cbn.
    rewrite !app_nil_r. repeat split. lia.
  - assert (H1 : fetch_fails F (S (fetch_calls w)) = false).
    { replace (S (fetch_calls w)) with (fetch_calls w + 1) by lia. apply Hok. lia. }
    rewrite H1.
    destruct (firstn b (src_result w)) as [|r rs] eqn:Hrows.
    { apply (firstn_nil_inv _ Hb) in Hrows. rewrite Hrows, chunks_nil in Hj.
      simpl in Hj. lia. }
    assert (Hne : src_result w <> [])
      by (intros E; rewrite E, firstn_nil in Hrows; discriminate).
    rewrite (chunks_step Hb Hne), Hrows in Hj |- *.
    match goal with
    | |- context [write_chunk F ?sql ?rows ?t ?n ?w0] =>
        pose proof (write_chunk_frame F sql rows t n w0) as Hframe;
        pose proof (@write_chunk_end F sql rows t n w0 Hpend) as Hend;
        destruct (write_chunk F sql rows t n w0) as [res w1] eqn:Hwc
    end.
    simpl in Hframe, Hend.
    destruct Hframe as (_ & Hres & _ & _ & Hfc & Hcs & Hrt).
    simpl in Hres, Hfc, Hcs, Hrt.
    rewrite chunk_sizes_app in Hcs. simpl in Hcs.
    rewrite reported_totals_app in Hrt. simpl in Hrt. rewrite app_nil_r in Hrt.
    assert (Hok' : forall n, 1 <= n <= j -> fetch_fails F (fetch_calls w1 + n) = false).
    { intros n Hn. rewrite Hfc. replace (S (fetch_calls w) + n)
        with (fetch_calls w + S n) by lia. apply Hok. lia. }
    assert (Hbad' : fetch_fails F (fetch_calls w1 + S j) = true).
    { rewrite Hfc. replace (S (fetch_calls w) + S j)
        with (fetch_calls w + S (S j)) by lia. exact Hbad. }
    assert (Hj' : j <= length (chunks b (src_result w1)))
      by (rewrite Hres; simpl in Hj; lia).
    inversion Hend as [w0 Hany _ Hcom Hpe _ _ _ | w0 Hwhy _ Hcom Hpe _ _ _
                      | w0 _ Hraise]; subst.
    + destruct (IH fuel w1 (total + length (r :: rs)) (k + 1)) as (w' & Hrun & IHf);
        try assumption; [lia|].
      destruct IHf as (H2 & H3 & H4 & H5).
      exists w'. rewrite Hrun. split; [reflexivity|].
      assert (Hck : chunk_ok F (r :: rs) = true) by (unfold chunk_ok; now rewrite Hany).
      cbn [firstn filter map concat]. rewrite Hck.
      rewrite H2, H3, H4, H5, Hres, Hcom, Hcs, Hrt, Hfc.
      cbn [tgt_committed set_log set_src_result set_fetch_calls concat].
      rewrite <- !app_assoc. repeat split. lia.
    + destruct Hwhy as [Hany|Hc]; [|rewrite commit_ok in Hc; discriminate].
      destruct (IH fuel w1 total (k + 1)) as (w' & Hrun & IHf);
        try assumption; [lia|].
      destruct IHf as (H2 & H3 & H4 & H5).
      exists w'. rewrite Hrun. split; [reflexivity|].
      assert (Hck : chunk_ok F (r :: rs) = false) by (unfold chunk_ok; now rewrite Hany).
      cbn [firstn filter map concat]. rewrite Hck.
      rewrite H2, H3, H4, H5, Hres, Hcom, Hcs, Hrt, Hfc.
      cbn [tgt_committed set_log set_src_result set_fetch_calls].
      rewrite <- !app_assoc. repeat split. lia.
    + rewrite rollback_ok in Hraise. discriminate.
Qed.

End ReadFailure.

(** X9. A read failure in mid-stream is fatal but keeps what was committed:
    if the first [j] calls of [fetchmany] go through and the next one
    raises, the run ends through [sys.exit(1)] after attempting the first
    [j] chunks; those of them without a rejected row stay committed in the
    target, the rows not yet read are not transferred, and no closing total
    is logged. *)
Theorem migrate_table_read_failure_keeps_committed_chunks
        (F : faults) (fuel j : nat) (source_conf target_conf : conf)
        (src_schema src_table tgt_schema tgt_table : string) (b : nat)
        (db : list table) (tgt : list row) (t : table) :
  1 <= b ->
  setup_fails F source_conf target_conf = false ->
  (forall n, commit_fails F n = false) ->
  (forall n, rollback_fails F n = false) ->
  find_table db src_schema src_table = Some t ->
  j < fuel ->
  j <= length (chunks b (tbl_rows t)) ->
  (forall n, 1 <= n <= j -> fetch_fails F n = false) ->
  fetch_fails F (S j) = true ->
  let run := migrate_table F fuel source_conf target_conf src_schema src_table
                           tgt_schema tgt_table b (initial_world db tgt) in
  fst run = Raise (SystemExit 1) /\
  tgt_committed (snd run) =
    tgt ++ concat (filter (chunk_ok F) (firstn j (chunks b (tbl_rows t)))) /\
  chunk_sizes (log (snd run)) = map (@length row) (firstn j (chunks b (tbl_rows t))) /\
  reported_totals (log (snd run)) = [] /\
  fetch_calls (snd run) = S j /\
  last (log (snd run)) (LogFatal "") = LogFatal "DatabaseError: fetch failed".
Proof.
  intros Hb Hsetup Hcommit Hroll Hfind Hfuel Hj Hok Hbad run. subst run.
  rewrite (@migrate_table_loop_run F fuel source_conf target_conf
             src_schema src_table tgt_schema tgt_table b db tgt t Hsetup Hfind).
  match goal with
  | |- context [transfer_loop _ fuel ?ts ?tt ?cs ?ph b 0 0 ?w0] =>
      destruct (@transfer_loop_read_failure F Hcommit Hroll ts tt cs ph b Hb j fuel w0
                  0 0 Hfuel Hj Hok Hbad eq_refl)
        as (w' & Hloop & Hcom & Hcs & Hrt & Hfc)
  end.
  rewrite Hloop.
  cbn [world_at_loop initial_world src_result tgt_committed log fetch_calls]
    in Hcom, Hcs, Hrt, Hfc.
  cbn [finish fst snd tgt_committed log fetch_calls set_log].
  rewrite chunk_sizes_app, reported_totals_app, Hcs, Hrt, Hcom, Hfc, last_last.
  cbn. rewrite !app_nil_r. repeat split.
Qed.

(** X9 at three rows in chunks of two, the second [fetchmany] raising. *)
Lemma migrate_table_read_failure_keeps_committed_chunks_witness :
  let run := migrate_table read_breaks 4 full_conf full_conf "public" "t" "public" "t2" 2
                           (initial_world demo_db []) in
  fst run = Raise (SystemExit 1) /\
  tgt_committed (snd run) =
    [] ++ concat (filter (chunk_ok read_breaks) (firstn 1 (chunks 2 demo_rows))).
Proof.
  destruct (@migrate_table_read_failure_keeps_committed_chunks read_breaks 4 1
              full_conf full_conf "public" "t" "public" "t2" 2 demo_db [] demo_table
              (le_S 1 1 (le_n 1)) eq_refl (fun _ => eq_refl) (fun _ => eq_refl) eq_refl
              (le_S 2 3 (le_S 2 2 (le_n 2))) (le_S 1 1 (le_n 1)))
    as (H1 & H2 & _).
  - intros n Hn. assert (E : n = 1) by lia. subst n. reflexivity.
  - reflexivity.
  - exact (conj H1 H2).
Defined.

(** ** A rollback that fails *)

(** X10. If a row of the first chunk is rejected and the rollback that
    follows raises, the run ends through [sys.exit(1)] right there: nothing
    more is fetched, nothing is committed, the rows inserted before the
    rejected one stay in the open transaction, and the log carries the
    rollback's error as the fatal line but no line for the failed chunk. *)
Theorem migrate_table_rollback_failure_is_fatal
        (F : faults) (fuel : nat) (source_conf target_conf : conf)
        (src_schema src_table tgt_schema tgt_table : string) (b : nat)
        (db : list table) (tgt : list row) (t : table) :
  setup_fails F source_conf target_conf = false ->
  find_table db src_schema src_table = Some t ->
  0 < fuel ->
  fetch_fails F 1 = false ->
  existsb (insert_fails F) (firstn b (tbl_rows t)) = true ->
  rollback_fails F 1 = true ->
  let run := migrate_table F fuel source_conf target_conf src_schema src_table
                           tgt_schema tgt_table b (initial_world db tgt) in
  fst run = Raise (SystemExit 1) /\
  fetch_calls (snd run) = 1 /\
  commit_calls (snd run) = 0 /\
  rollback_calls (snd run) = 1 /\
  tgt_committed (snd run) = tgt /\
  tgt_pending (snd run) = accepted F (firstn b (tbl_rows t)) /\
  log (snd run) =
    [LogStart src_schema src_table tgt_schema tgt_table b;
     LogChunkPrepare 1 (length (firstn b (tbl_rows t)));
     LogFatal "OperationalError: rollback failed"].
Proof.
  intros Hsetup Hfind Hfuel Hfetch Hany Hroll run. subst run.
  rewrite (@migrate_table_loop_run F fuel source_conf target_conf
             src_schema src_table tgt_schema tgt_table b db tgt t Hsetup Hfind).
  destruct fuel as [|fuel]; [lia|].
  rewrite transfer_loop_unfold. cbv zeta.
  cbn [world_at_loop initial_world fetch_calls src_result src_db log].
  rewrite Hfetch.
  destruct (firstn b (tbl_rows t)) as [|r rs] eqn:Hrows; [discriminate|].
  rewrite write_chunk_run. cbv zeta. rewrite Hany, chunk_handler_run. cbv zeta.
  cbn [rollback_calls set_tgt_pending set_executed set_log set_src_result
       set_fetch_calls world_at_loop initial_world].
  rewrite Hroll. cbn. repeat split.
Qed.

(** X10 at three rows in chunks of two with [(2,'b')] rejected. *)
Lemma migrate_table_rollback_failure_is_fatal_witness :
  let run := migrate_table rollback_breaks 4 full_conf full_conf "public" "t" "public"
                           "t2" 2 (initial_world demo_db []) in
  fst run = Raise (SystemExit 1) /\ fetch_calls (snd run) = 1 /\
  tgt_pending (snd run) = accepted rollback_breaks (firstn 2 demo_rows).
Proof.
  destruct (@migrate_table_rollback_failure_is_fatal rollback_breaks 4 full_conf
              full_conf "public" "t" "public" "t2" 2 demo_db [] demo_table
              eq_refl eq_refl (le_S 1 3 (le_S 1 2 (le_S 1 1 (le_n 1))))
              eq_refl eq_refl eq_refl)
    as (H1 & H2 & _ & _ & _ & H3 & _).
  exact (conj H1 (conj H2 H3)).
Defined.

(** ** A target that refuses every commit *)

Section RefusedCommits.

Variable F : faults.
Hypothesis fetch_ok : forall n, fetch_fails F n = false.
Hypothesis commit_never : forall n, commit_fails F n = true.
Hypothesis rollback_ok : forall n, rollback_fails F n = false.

Lemma transfer_loop_refused_commits (ts tt cs ph : string) (b : nat) :
  0 < b ->
  forall (fuel : nat) (w : world) (total k : nat),
    length (src_result w) < fuel ->
    tgt_pending w = [] ->
    exists w',
      transfer_loop F fuel ts tt cs ph b total k w = (Ok total, w') /\
      tgt_committed w' = tgt_committed w /\
      tgt_pending w' = [] /\
      rollback_calls w' = rollback_calls w + length (chunks b (src_result w)) /\
      failed_chunks (log w') =
        failed_chunks (log w) ++ seq (S k) (length (chunks b (src_result w))) /\
      reported_totals (log w') = reported_totals (log w).
Proof.
  intros Hb.
  induction fuel as [|fuel IH]; intros w total k Hfuel Hpend; [lia|].
  rewrite transfer_loop_unfold. cbv zeta. rewrite fetch_ok.
  destruct (firstn b (src_result w)) as [|r rs] eqn:Hrows.
  { apply (firstn_nil_inv _ Hb) in Hrows. rewrite Hrows, chunks_nil.
    eexists. split; [reflexivity|]. cbn. rewrite app_nil_r. repeat split; auto. }
  assert (Hne : src_result w <> [])
    by (intros E; rewrite E, firstn_nil in Hrows; discriminate).
  pose proof (firstn_cons_skipn_shorter _ _ Hrows) as Hshort.
  rewrite (chunks_step Hb Hne), Hrows.
  match goal with
  | |- context [write_chunk F ?sql ?rows ?t ?n ?w0] =>
      pose proof (write_chunk_frame F sql rows t n w0) as Hframe;
      pose proof (@write_chunk_end F sql rows t n w0 Hpend) as Hend;
      destruct (write_chunk F sql rows t n w0) as [res w1] eqn:Hwc
  end.
  simpl in Hframe, Hend.
  destruct Hframe as (_ & Hres & _ & _ & _ & _ & Hrt).
  simpl in Hres, Hrt.
  rewrite reported_totals_app in Hrt. simpl in Hrt. rewrite app_nil_r in Hrt.
  inversion Hend as [w0 _ Hc _ _ _ _ _ | w0 _ _ Hcom Hpe _ Hrc Hfl | w0 _ Hraise]; subst.
  - rewrite commit_never in Hc. discriminate.
  - cbn [log rollback_calls set_log set_src_result set_fetch_calls] in Hfl, Hrc, Hcom.
    rewrite failed_chunks_app in Hfl. simpl in Hfl. rewrite app_nil_r in Hfl.
    destruct (IH w1 total (k + 1)) as (w' & Hrun & H1 & H2 & H3 & H4 & H5);
      [rewrite Hres; lia | exact Hpe |].
    exists w'. rewrite Hrun. split; [reflexivity|].
    rewrite H1, H3, H4, H5, Hres, Hcom, Hrc, Hfl, Hrt.
    cbn [length seq]. replace (k + 1) with (S k) by lia.
    rewrite <- app_assoc. repeat split; auto; lia.
  - rewrite rollback_ok in Hraise. discriminate.
Qed.

End RefusedCommits.

(** X11. If every commit raises while reads and rollbacks go through, the
    run still returns normally with exit status zero: every chunk is rolled
    back and logged as failed under its number, nothing is committed, and
    the closing line reports a total of zero. *)
Theorem migrate_table_refused_commits_return_normally
        (F : faults) (fuel : nat) (source_conf target_conf : conf)
        (src_schema src_table tgt_schema tgt_table : string) (b : nat)
        (db : list table) (tgt : list row) (t : table) :
  1 <= b ->
  setup_fails F source_conf target_conf = false ->
  (forall n, fetch_fails F n = false) ->
  (forall n, commit_fails F n = true) ->
  (forall n, rollback_fails F n = false) ->
  find_table db src_schema src_table = Some t ->
  length (tbl_rows t) < fuel ->
  let run := migrate_table F fuel source_conf target_conf src_schema src_table
                           tgt_schema tgt_table b (initial_world db tgt) in
  fst run = Ok tt /\
  exit_status (fst run) = Some 0%Z /\
  tgt_committed (snd run) = tgt /\
  rollback_calls (snd run) = ceil_div (length (tbl_rows t)) b /\
  failed_chunks (log (snd run)) = seq 1 (ceil_div (length (tbl_rows t)) b) /\
  reported_totals (log (snd run)) = [0].
Proof.
  intros Hb Hsetup Hfetch Hcommit Hroll Hfind Hfuel run. subst run.
  rewrite (@migrate_table_loop_run F fuel source_conf target_conf
             src_schema src_table tgt_schema tgt_table b db tgt t Hsetup Hfind).
  match goal with
  | |- context [transfer_loop _ fuel ?ts ?tt ?cs ?ph b 0 0 ?w0] =>
      destruct (@transfer_loop_refused_commits F Hfetch Hcommit Hroll ts tt cs ph b Hb
                  fuel w0 0 0 Hfuel eq_refl)
        as (w' & Hloop & Hcom & _ & Hrc & Hfl & Hrt)
  end.
  rewrite Hloop.
  cbn [world_at_loop initial_world src_result tgt_committed log rollback_calls]
    in Hcom, Hrc, Hfl, Hrt.
  cbn [finish fst snd exit_status tgt_committed rollback_calls log set_log set_closed].
  rewrite failed_chunks_app, reported_totals_app, Hcom, Hrc, Hfl, Hrt.
  rewrite (length_chunks _ Hb). cbn. rewrite !app_nil_r. repeat split.
Qed.

(** X11 at the demonstration table. *)
Lemma migrate_table_refused_commits_return_normally_witness :
  let run := migrate_table commits_fail 4 full_conf full_conf "public" "t" "public" "t2"
                           2 (initial_world demo_db []) in
  fst run = Ok tt /\ tgt_committed (snd run) = [] /\
  reported_totals (log (snd run)) = [0].
Proof.
  destruct (@migrate_table_refused_commits_return_normally commits_fail 4 full_conf
              full_conf "public" "t" "public" "t2" 2 demo_db [] demo_table
              (le_S 1 1 (le_n 1)) eq_refl (fun _ => eq_refl) (fun _ => eq_refl)
              (fun _ => eq_refl) eq_refl (le_n 4))
    as (H1 & _ & H2 & _ & _ & H3).
  exact (conj H1 (conj H2 H3)).
Defined.

(** ** A batch size of zero *)

(** X12. With [chunk_size = 0] the first [fetchmany] returns the empty
    batch, so the run returns normally after a single fetch without
    transferring anything, whatever the source table holds: no chunk, no
    commit, a reported total of zero, the four handles closed. *)
Theorem migrate_table_zero_chunk_size_transfers_nothing
        (F : faults) (fuel : nat) (source_conf target_conf : conf)
        (src_schema src_table tgt_schema tgt_table : string)
        (db : list table) (tgt : list row) (t : table) :
  setup_fails F source_conf target_conf = false ->
  find_table db src_schema src_table = Some t ->
  0 < fuel ->
  fetch_fails F 1 = false ->
  let run := migrate_table F fuel source_conf target_conf src_schema src_table
                           tgt_schema tgt_table 0 (initial_world db tgt) in
  fst run = Ok tt /\
  tgt_committed (snd run) = tgt /\
  fetch_calls (snd run) = 1 /\
  commit_calls (snd run) = 0 /\
  chunk_sizes (log (snd run)) = [] /\
  reported_totals (log (snd run)) = [0] /\
  closed (snd run) = [SrcCur; SrcConn; TgtCur; TgtConn].
Proof.
  intros Hsetup Hfind Hfuel Hfetch run. subst run.
  rewrite (@migrate_table_loop_run F fuel source_conf target_conf
             src_schema src_table tgt_schema tgt_table 0 db tgt t Hsetup Hfind).
  destruct fuel as [|fuel]; [lia|].
  rewrite transfer_loop_unfold. cbv zeta.
  cbn [world_at_loop initial_world fetch_calls src_result src_db log].
  rewrite Hfetch. cbn. repeat split.
Qed.

(** X12 at the demonstration table of three rows. *)
Lemma migrate_table_zero_chunk_size_transfers_nothing_witness :
  let run := migrate_table no_faults 1 full_conf full_conf "public" "t" "public" "t2" 0
                           (initial_world demo_db []) in
  fst run = Ok tt /\ tgt_committed (snd run) = [] /\
  reported_totals (log (snd run)) = [0].
Proof.
  destruct (@migrate_table_zero_chunk_size_transfers_nothing no_faults 1 full_conf
              full_conf "public" "t" "public" "t2" demo_db [] demo_table
              eq_refl eq_refl (le_n 1) eq_refl)
    as (H1 & H2 & _ & _ & _ & H3 & _).
  exact (conj H1 (conj H2 H3)).
Defined.

(** ** Running the migration twice *)

(** A fault-free run from any world whose target transaction is empty. *)
Lemma fault_free_run_from_world
      (fuel : nat) (source_conf target_conf : conf)
      (src_schema src_table tgt_schema tgt_table : string) (b : nat)
      (w : world) (t : table) :
  1 <= b ->
  conf_complete source_conf = true ->
  conf_complete target_conf = true ->
  find_table (src_db w) src_schema src_table = Some t ->
  length (tbl_rows t) < fuel ->
  tgt_pending w = [] ->
  let run := migrate_table no_faults fuel source_conf target_conf src_schema src_table
                           tgt_schema tgt_table b w in
  fst run = Ok tt /\
  src_db (snd run) = src_db w /\
  tgt_pending (snd run) = [] /\
  tgt_committed (snd run) = tgt_committed w ++ tbl_rows t /\
  reported_totals (log (snd run)) = reported_totals (log w) ++ [length (tbl_rows t)].
Proof.
  intros Hb Hsc Htc Hfind Hfuel Hpend run. subst run.
  rewrite (@migrate_table_run no_faults fuel source_conf target_conf src_schema
             src_table tgt_schema tgt_table b w t)
    by (assumption || reflexivity).
  destruct (@filter_chunk_ok_all no_faults (chunks b (tbl_rows t)) (fun _ => eq_refl))
    as [Hall _].
  match goal with
  | |- context [transfer_loop _ fuel ?ts ?tt ?cs ?ph b 0 0 ?w0] =>
      destruct (@transfer_loop_run no_faults (fun _ => eq_refl) (fun _ => eq_refl)
                  (fun _ => eq_refl) ts tt cs ph b Hb fuel w0 0 0 Hfuel Hpend)
        as (w1 & Hloop & Hcom & Hpe & _ & _ & _ & Hrt & _ & _ & _ & Hdb & _)
  end.
  rewrite Hloop.
  cbn [world_at_loop src_result src_db tgt_committed log] in Hcom, Hrt, Hdb |- *.
  rewrite Hall, (concat_chunks _ Hb) in Hcom |- *.
  rewrite reported_totals_app in Hrt. cbn [reported_totals] in Hrt.
  rewrite app_nil_r in Hrt.
  destruct w1 as [db1 res1 com1 pend1 op1 cl1 ex1 fc1 cc1 rc1 lg1].
  cbn [src_db tgt_committed tgt_pending log] in Hcom, Hpe, Hrt, Hdb.
  cbn [finish fst snd set_closed set_log log src_db tgt_committed tgt_pending].
  rewrite reported_totals_app, Hrt. cbn. repeat split; assumption.
Qed.

(** X13. The migration is not idempotent: it neither empties the target nor
    skips rows already there, so a second fault-free run in the same
    process appends the source rows a second time and reports the same
    total again. *)
Theorem migrate_table_twice_duplicates_rows
        (fuel : nat) (source_conf target_conf : conf)
        (src_schema src_table tgt_schema tgt_table : string) (b : nat)
        (db : list table) (tgt : list row) (t : table) :
  1 <= b ->
  conf_complete source_conf = true ->
  conf_complete target_conf = true ->
  find_table db src_schema src_table = Some t ->
  length (tbl_rows t) < fuel ->
  let first := migrate_table no_faults fuel source_conf target_conf src_schema src_table
                             tgt_schema tgt_table b (initial_world db tgt) in
  let second := migrate_table no_faults fuel source_conf target_conf src_schema src_table
                              tgt_schema tgt_table b (snd first) in
  fst first = Ok tt /\
  fst second = Ok tt /\
  tgt_committed (snd second) = tgt ++ tbl_rows t ++ tbl_rows t /\
  reported_totals (log (snd second)) = [length (tbl_rows t); length (tbl_rows t)].
Proof.
  intros Hb Hsc Htc Hfind Hfuel first second.
  destruct (@fault_free_run_from_world fuel source_conf target_conf src_schema
              src_table tgt_schema tgt_table b (initial_world db tgt) t
              Hb Hsc Htc Hfind Hfuel eq_refl)
    as (H1 & Hdb1 & Hp1 & Hc1 & Hr1).
  fold first in H1, Hdb1, Hp1, Hc1, Hr1.
  assert (Hfind2 : find_table (src_db (snd first)) src_schema src_table = Some t)
    by (now rewrite Hdb1).
  destruct (@fault_free_run_from_world fuel source_conf target_conf src_schema
              src_table tgt_schema tgt_table b (snd first) t
              Hb Hsc Htc Hfind2 Hfuel Hp1)
    as (H2 & _ & _ & Hc2 & Hr2).
  fold second in H2, Hc2, Hr2.
  rewrite Hc2, Hr2, Hc1, Hr1. cbn. rewrite <- app_assoc. repeat split; assumption.
Qed.

(** X13 at the demonstration table. *)
Lemma migrate_table_twice_duplicates_rows_witness :
  let first := migrate_table no_faults 4 full_conf full_conf "public" "t" "public" "t2" 2
                             (initial_world demo_db []) in
  let second := migrate_table no_faults 4 full_conf full_conf "public" "t" "public" "t2"
                              2 (snd first) in
  fst second = Ok tt /\ tgt_committed (snd second) = [] ++ demo_rows ++ demo_rows.
Proof.
  destruct (@migrate_table_twice_duplicates_rows 4 full_conf full_conf "public" "t"
              "public" "t2" 2 demo_db [] demo_table
              (le_S 1 1 (le_n 1)) eq_refl eq_refl eq_refl (le_n 4))
    as (_ & H1 & H2 & _).
  exact (conj H1 H2).
Defined.

(** ** The column list of a table *)

Lemma order_by_ordinal_sorted_id (l : list column_info) :
  Sorted by_ordinal l -> order_by_ordinal l = l.
Proof.
  induction 1 as [|c l Hs IH Hd]; simpl; [reflexivity|].
  rewrite IH. destruct Hd as [|d l' Hcd]; simpl; [reflexivity|].
  unfold by_ordinal in Hcd. apply Z.leb_le in Hcd. now rewrite Hcd.
Qed.

Lemma catalog_lines_sorted (schema name : string) (cols : list (string * Z)) :
  Sorted (fun c d => (snd c <= snd d)%Z) cols ->
  Sorted by_ordinal (map (fun c => mkColumn schema name (fst c) (snd c)) cols).
Proof.
  induction 1 as [|c l Hs IH Hd]; simpl; constructor; [exact IH|].
  destruct Hd; simpl; constructor. exact H.
Qed.

(** X14. For a source that has exactly one table of the given schema and
    name, the query the code sends, read by the server, returns that
    table's column names and no other table's, each once; when the catalog
    lists them by non-decreasing ordinal position they come back in
    exactly that order. *)
Theorem introspect_columns_of_table
        (F : faults) (schema name : string) (w : world) (t : table) :
  filter (is_table schema name) (src_db w) = [t] ->
  catalog_query_fails F = false ->
  exists columns,
    fst (introspect_columns F schema name w) = Ok columns /\
    Permutation columns (map fst (tbl_columns t)) /\
    length columns = length (tbl_columns t) /\
    (Sorted (fun c d => (snd c <= snd d)%Z) (tbl_columns t) ->
     columns = map fst (tbl_columns t)).
Proof.
  intros Hone Hq.
  rewrite introspect_columns_run, Hq. cbv zeta. cbn [fst].
  exists (columns_of (src_db w) schema name). split; [reflexivity|].
  unfold columns_of, catalog_lookup.
  rewrite catalog_filter, Hone. unfold information_schema_columns.
  cbn [flat_map]. rewrite app_nil_r.
  assert (Hnames : map column_name
            (map (fun c => mkColumn (tbl_schema t) (tbl_name t) (fst c) (snd c))
                 (tbl_columns t)) = map fst (tbl_columns t)).
  { rewrite map_map. apply map_ext. reflexivity. }
  repeat split.
  - rewrite <- Hnames. apply Permutation_map, order_by_ordinal_perm.
  - rewrite length_map.
    rewrite (Permutation_length (order_by_ordinal_perm _)). apply length_map.
  - intros Hsorted.
    rewrite order_by_ordinal_sorted_id by (now apply catalog_lines_sorted).
    exact Hnames.
Qed.

(** X14 at the demonstration source. *)
Lemma introspect_columns_of_table_witness :
  exists columns,
    fst (introspect_columns no_faults "public" "t" (initial_world demo_db [])) =
      Ok columns /\
    Permutation columns (map fst (tbl_columns demo_table)) /\
    length columns = length (tbl_columns demo_table) /\
    (Sorted (fun c d => (snd c <= snd d)%Z) (tbl_columns demo_table) ->
     columns = map fst (tbl_columns demo_table)).
Proof.
  exact (@introspect_columns_of_table no_faults "public" "t" (initial_world demo_db [])
           demo_table eq_refl eq_refl).
Defined.

(** ** The SQL text of the statements *)

Lemma count_char_app (c : ascii) (s1 s2 : string) :
  count_char c (s1 ++ s2)%string = count_char c s1 + count_char c s2.
Proof.
  induction s1 as [|d s1 IH]; simpl; [reflexivity|]. rewrite IH. lia.
Qed.

Lemma count_char_join (c : ascii) (sep : string) (items : list string) :
  count_char c sep = 0 ->
  Forall (fun s => count_char c s = 0) items ->
  count_char c (join sep items) = 0.
Proof.
  intros Hsep Hall. unfold join.
  induction Hall as [|x items Hx Hall IH]; simpl; [reflexivity|].
  destruct items as [|y items]; [exact Hx|].
  rewrite !count_char_app, Hx, Hsep. exact IH.
Qed.

Lemma count_percent_placeholders (n : nat) :
  count_char percent (join ", " (repeat "%s"%string n)) = n.
Proof.
  unfold join. induction n as [|n IH]; [reflexivity|].
  cbn [repeat]. destruct n as [|n]; [reflexivity|].
  change (String.concat ", " ("%s"%string :: repeat "%s"%string (S n)))
    with ("%s" ++ ", " ++ String.concat ", " (repeat "%s"%string (S n)))%string.
  rewrite !count_char_app, IH. reflexivity.
Qed.

(** X15. The insert text carries exactly one [%s] placeholder per column:
    when neither the target names nor the column names contain a percent
    sign, the number of percent signs in the text is the number of
    columns. *)
Theorem insert_sql_one_placeholder_per_column
        (tgt_schema tgt_table : string) (columns : list string) :
  count_char percent tgt_schema = 0 ->
  count_char percent tgt_table = 0 ->
  Forall (fun c => count_char percent c = 0) columns ->
  count_char percent
    (insert_sql_text tgt_schema tgt_table (join ", " columns)
       (join ", " (repeat "%s"%string (length columns)))) = length columns.
Proof.
  intros Hs Ht Hc. unfold insert_sql_text.
  rewrite !count_char_app, count_percent_placeholders, Hs, Ht.
  rewrite (count_char_join percent ", " eq_refl Hc). cbn. lia.
Qed.

(** X15 at the demonstration table copied to [public.t2]. *)
Lemma insert_sql_one_placeholder_per_column_witness :
  count_char percent
    (insert_sql_text "public" "t2" (join ", " ["id"; "name"]%string)
       (join ", " (repeat "%s"%string (length ["id"; "name"]%string)))) = 2.
Proof.
  apply (@insert_sql_one_placeholder_per_column "public" "t2" ["id"; "name"]%string);
    [reflexivity | reflexivity | repeat constructor].
Defined.

Lemma append_cancel_l (p s s' : string) :
  (p ++ s)%string = (p ++ s')%string -> s = s'.
Proof.
  induction p as [|c p IH]; simpl; [tauto|].
  intros H. injection H as H. now apply IH.
Qed.

(** Two texts cut at the first occurrence of a character they do not
    contain before it. *)
Lemma split_at_first (c : ascii) (s s' r r' : string) :
  count_char c s = 0 -> count_char c s' = 0 ->
  (s ++ String c r)%string = (s' ++ String c r')%string ->
  s = s' /\ r = r'.
Proof.
  revert s'. induction s as [|d s IH]; intros [|d' s'] Hs Hs' H; simpl in *.
  - injection H as H. now split.
  - injection H as Hc H. subst d'. rewrite Ascii.eqb_refl in Hs'. discriminate.
  - injection H as Hc H. subst d. rewrite Ascii.eqb_refl in Hs. discriminate.
  - injection H as Hc H. subst d'.
    destruct (Ascii.eqb d c); [discriminate|].
    destruct (IH s' Hs Hs' H) as [-> ->]. now split.
Qed.

Lemma quoted_names_of_text (cols ph s t s' t' : string) :
  count_char (ascii_of_nat 34) s = 0 -> count_char (ascii_of_nat 34) t = 0 ->
  count_char (ascii_of_nat 34) s' = 0 -> count_char (ascii_of_nat 34) t' = 0 ->
  select_sql cols s t = select_sql cols s' t' \/
  insert_sql_text s t cols ph = insert_sql_text s' t' cols ph ->
  (s, t) = (s', t').
Proof.
  intros Hs Ht Hs' Ht'. unfold select_sql, insert_sql_text, dquote. intros [H|H].
  - apply append_cancel_l in H. apply append_cancel_l in H.
    apply append_cancel_l in H. cbn [append] in H. injection H as H.
    apply (@split_at_first _ s s' _ _ Hs Hs') in H. destruct H as [-> H].
    injection H as H.
    apply (@split_at_first _ t t' _ _ Ht Ht') in H. now destruct H as [-> _].
  - apply append_cancel_l in H. cbn [append] in H. injection H as H.
    apply (@split_at_first _ s s' _ _ Hs Hs') in H. destruct H as [-> H].
    injection H as H.
    apply (@split_at_first _ t t' _ _ Ht Ht') in H. now destruct H as [-> _].
Qed.

(** X16. For schema and table names that contain no double quote, the
    quoting of the data select and of the insert is unambiguous: with the
    same column list, different (schema, table) pairs give different
    statement texts, whatever other characters the names contain. *)
Theorem quoted_names_distinguish_statements
        (cols ph s t s' t' : string) :
  count_char (ascii_of_nat 34) s = 0 -> count_char (ascii_of_nat 34) t = 0 ->
  count_char (ascii_of_nat 34) s' = 0 -> count_char (ascii_of_nat 34) t' = 0 ->
  (s, t) <> (s', t') ->
  select_sql cols s t <> select_sql cols s' t' /\
  insert_sql_text s t cols ph <> insert_sql_text s' t' cols ph.
Proof.
  intros Hs Ht Hs' Ht' Hne.
  split; intros H; apply Hne;
    apply (@quoted_names_of_text cols ph s t s' t' Hs Ht Hs' Ht'); [now left | now right].
Qed.

(** X16 at a table whose name is the schema and table of the other
    statement joined by a dot. *)
Lemma quoted_names_distinguish_statements_witness :
  select_sql "id" "my-schema" "my.table" <> select_sql "id" "my-schema.my" "table".
Proof.
  apply (@quoted_names_distinguish_statements "id" "%s" "my-schema" "my.table"
           "my-schema.my" "table" eq_refl eq_refl eq_refl eq_refl).
  discriminate.
Defined.

(** ** The size of the chunks *)

Lemma transfer_loop_chunk_bounds (F : faults) (ts tt cs ph : string) (b : nat) :
  forall (fuel : nat) (w : world) (total k : nat),
    exists sizes,
      chunk_sizes (log (snd (transfer_loop F fuel ts tt cs ph b total k w))) =
        chunk_sizes (log w) ++ sizes /\
      Forall (fun n => 1 <= n <= b) sizes.
Proof.
  induction fuel as [|fuel IH]; intros w total k.
  { exists []. simpl. now rewrite app_nil_r. }
  rewrite transfer_loop_unfold. cbv zeta.
  destruct (fetch_fails F (S (fetch_calls w))).
  { exists []. simpl. now rewrite app_nil_r. }
  destruct (firstn b (src_result w)) as [|r rs] eqn:Hrows.
  { exists []. simpl. now rewrite app_nil_r. }
  assert (Hlen : 1 <= length (r :: rs) <= b).
  { split; [simpl; lia|]. rewrite <- Hrows, length_firstn. lia. }
  match goal with
  | |- context [write_chunk F ?sql ?rows ?t ?n ?w0] =>
      pose proof (write_chunk_frame F sql rows t n w0) as Hframe;
      destruct (write_chunk F sql rows t n w0) as [[t'|e|] w'] eqn:Hwc
  end; simpl in Hframe; destruct Hframe as (_ & _ & _ & _ & _ & Hcs & _);
    simpl in Hcs; rewrite chunk_sizes_app in Hcs; simpl in Hcs.
  - destruct (IH w' t' (k + 1)) as (sizes & Hs & Hall).
    exists (length (r :: rs) :: sizes). split.
    + rewrite Hs, Hcs. simpl. now rewrite <- app_assoc.
    + now constructor.
  - exists [length (r :: rs)]. split; [exact Hcs|].
    constructor; [exact Hlen | constructor].
  - exists [length (r :: rs)]. split; [exact Hcs|].
    constructor; [exact Hlen | constructor].
Qed.

(** X17. For a batch size that is not negative, whatever fails, every chunk
    the run announces has at least one row and at most [chunk_size] rows.
    (A negative [chunk_size], which the driver answers with all the rows
    left, is outside this statement.) *)
Theorem migrate_table_chunk_size_bounds
        (F : faults) (fuel : nat) (source_conf target_conf : conf)
        (src_schema src_table tgt_schema tgt_table : string) (chunk_size : Z)
        (db : list table) (tgt : list row) :
  (0 <= chunk_size)%Z ->
  let run := migrate_table F fuel source_conf target_conf src_schema src_table
                           tgt_schema tgt_table (Z.to_nat chunk_size)
                           (initial_world db tgt) in
  Forall (fun n => (1 <= Z.of_nat n <= chunk_size)%Z) (chunk_sizes (log (snd run))).
Proof.
  intros Hsize run. subst run.
  assert (Hbound : forall sizes,
            Forall (fun n => 1 <= n <= Z.to_nat chunk_size) sizes ->
            Forall (fun n => (1 <= Z.of_nat n <= chunk_size)%Z) sizes).
  { intros sizes Hall. eapply Forall_impl; [|exact Hall]. cbv beta. intros n Hn. lia. }
  apply Hbound.
  destruct (setup_fails F source_conf target_conf) eqn:Hsetup.
  { destruct (@migrate_table_setup_failure_trace F fuel source_conf target_conf
                src_schema src_table tgt_schema tgt_table (Z.to_nat chunk_size) db tgt
                Hsetup)
      as (op & ex & detail & Hrun & _).
    rewrite Hrun. cbn. constructor. }
  destruct (find_table db src_schema src_table) as [t|] eqn:Hfind.
  2: { rewrite (@missing_table_run_shape F fuel source_conf target_conf
                  src_schema src_table tgt_schema tgt_table (Z.to_nat chunk_size) db tgt
                  Hsetup Hfind).
       cbn. constructor. }
  rewrite (@migrate_table_loop_run F fuel source_conf target_conf
             src_schema src_table tgt_schema tgt_table (Z.to_nat chunk_size) db tgt t
             Hsetup Hfind).
  match goal with
  | |- context [transfer_loop F fuel ?ts ?tt ?cs ?ph ?b 0 0 ?w0] =>
      destruct (@transfer_loop_chunk_bounds F ts tt cs ph b fuel w0 0 0)
        as (sizes & Hs & Hall);
      destruct (transfer_loop F fuel ts tt cs ph b 0 0 w0)
        as [[total|[msg|code]|] [db' res' com' pend' op' cl' ex' fc' cc' rc' lg']]
  end;
    cbn [snd log world_at_loop initial_world app chunk_sizes] in Hs;
    cbn [finish snd log set_closed set_log];
    rewrite ?chunk_sizes_app, Hs; cbn; rewrite ?app_nil_r; exact Hall.
Qed.

(** X17 at three rows read two at a time, the second read raising. *)
Lemma migrate_table_chunk_size_bounds_witness :
  Forall (fun n => (1 <= Z.of_nat n <= 2)%Z)
         (chunk_sizes
            (log (snd (migrate_table read_breaks 4 full_conf full_conf "public" "t"
                         "public" "t2" (Z.to_nat 2) (initial_world demo_db []))))).
Proof.
  apply (@migrate_table_chunk_size_bounds read_breaks 4 full_conf full_conf
           "public" "t" "public" "t2" 2%Z demo_db []).
  discriminate.
Defined.
